(** * progress-watchdog: reconciliation of continue codes

    A shallow embedding of [progress-watchdog/main.go].  The watchdog lists
    the JuiceShop deployments of a cluster, queues one job per ready
    instance and lets a worker compare the continue code the instance
    reports over HTTP with the one cached in the deployment's annotations.

    Everything the program does to the outside (log lines, HTTP round
    trips, calls of the deployment API) is recorded in a trace; what the
    outside answers is read from an environment.  A Go panic is an
    explicit result: nothing in the program recovers from one, so a panic
    in any goroutine ends the process. *)

From stdpp Require Import gmap strings list fin_maps pretty.

Local Open Scope string_scope.
Local Open Scope list_scope.
Local Open Scope Z_scope.

(** ** Data *)

(** Levels of [go-logging] used by the program. *)
Inductive Level := DEBUG | INFO | WARNING | ERROR.

(** [types.PatchType] of the deployment API. *)
Inductive PatchType := JSONPatchType | MergePatchType | StrategicMergePatchType.

(** JSON documents, as far as the program builds them: objects of strings. *)
#[local] Unset Elimination Schemes.
Inductive Json :=
| JString (s : string)
| JObject (members : list (string * Json)).
#[local] Set Elimination Schemes.

(** What leaves the process. *)
Inductive Event :=
| Log (lvl : Level) (msg : string)
| LogJson (lvl : Level) (doc : Json)
| HttpDo (method url : string)
| DeploymentsList (namespace selector : string)
| DeploymentsPatch (namespace name : string) (pt : PatchType) (doc : Json)
| Sleep (seconds : Z).

(** [ContinueCodePayload]: json format of the get continue code response. *)
Record ContinueCodePayload := { ContinueCode : string }.

(** [ProgressUpdateJobs]: all a worker needs to do its job. *)
Record ProgressUpdateJobs := {
  Teamname : string;
  LastContinueCode : string
}.

(** The patch document. The innermost struct has a field named like the
    payload's, hence the prefix. *)
Record UpdateProgressDeploymentDiffAnnotations := {
  DiffContinueCode : string;
  DiffChallengesSolved : string
}.
Record UpdateProgressDeploymentMetadata := {
  Annotations : UpdateProgressDeploymentDiffAnnotations
}.
Record UpdateProgressDeploymentDiff := {
  Metadata : UpdateProgressDeploymentMetadata
}.

Definition continueCodeKey : string := "multi-juicer.iteratec.dev/continueCode".
Definition challengesSolvedKey : string := "multi-juicer.iteratec.dev/challengesSolved".

(** [json.Marshal] of the diff: every struct becomes an object whose member
    names are the [json] tags; no field is tagged [omitempty], so an empty
    string is written like any other. *)
Definition json_Marshal (diff : UpdateProgressDeploymentDiff) : Json :=
  JObject [("metadata",
    JObject [("annotations",
      JObject [(continueCodeKey, JString (DiffContinueCode (Annotations (Metadata diff))));
               (challengesSolvedKey, JString (DiffChallengesSolved (Annotations (Metadata diff))))])])].

(** A deployment as the program reads it: labels, annotations and
    [Status.ReadyReplicas]. *)
Record Deployment := {
  DLabels : gmap string string;
  DAnnotations : gmap string string;
  ReadyReplicas : Z
}.

(** Reading a Go map: a missing key yields the zero value. *)
Definition index (m : gmap string string) (k : string) : string :=
  default "" (m !! k).

(** ** The outside *)

(** An HTTP response: the status and what reading the body to its end
    gives. *)
Inductive ReadResult := ReadOk (bytes : string) | ReadErr (err : string).
Record Response := { StatusCode : Z; Body : ReadResult }.
Inductive DoResult := DoErr (err : string) | DoResp (res : Response).

(** The answers of the outside. Calls are numbered by a clock, so an
    instance may answer one request and fail the next.
    - [url_parse_error]: the error [http.NewRequest] reports for a URL it
      cannot parse (the methods used are valid);
    - [round_trip]: what [http.DefaultClient.Do] yields;
    - [json_unmarshal]: [json.Unmarshal] into a [ContinueCodePayload];
    - [label_selects]: whether a label selector matches a set of labels;
    - [list_error], [patch_error]: failures of the deployment API. *)
Record Env := {
  url_parse_error : string → option string;
  round_trip : nat → string → string → DoResult;
  json_unmarshal : string → string + ContinueCodePayload;
  label_selects : string → gmap string string → bool;
  list_error : nat → option string;
  patch_error : nat → string → option string
}.

(** The state the program acts on: the clock and the deployments of the
    namespace, by name. *)
Record World := {
  clock : nat;
  deployments : gmap string Deployment
}.

Definition tick (w : World) : World :=
  {| clock := S (clock w); deployments := deployments w |}.

(** ** Computations *)

Inductive Res (A : Type) :=
| Ok (a : A)
| Panicked (msg : string).
Arguments Ok {A} a.
Arguments Panicked {A} msg.

Record Run (A : Type) := {
  trace : list Event;
  final : World;
  result : Res A
}.
Arguments trace {A} r.
Arguments final {A} r.
Arguments result {A} r.

Definition M (A : Type) : Type := World → Run A.

Definition ret {A} (a : A) : M A :=
  λ w, {| trace := []; final := w; result := Ok a |}.

Definition bind {A B} (m : M A) (f : A → M B) : M B :=
  λ w,
    let r := m w in
    match result r with
    | Ok a =>
        let r' := f a (final r) in
        {| trace := trace r ++ trace r'; final := final r'; result := result r' |}
    | Panicked msg =>
        {| trace := trace r; final := final r; result := Panicked msg |}
    end.

Definition panic {A} (msg : string) : M A :=
  λ w, {| trace := []; final := w; result := Panicked msg |}.

Definition emit (e : Event) : M unit :=
  λ w, {| trace := [e]; final := w; result := Ok tt |}.

Notation "x <- m ;; k" := (bind m (λ x, k))
  (at level 100, m at next level, right associativity).
Notation "m ;;; k" := (bind m (λ _, k))
  (at level 100, right associativity).

Definition log (lvl : Level) (msg : string) : M unit := emit (Log lvl msg).

(** The message of the runtime panic on [x.f] with [x] nil. *)
Definition nil_dereference : string :=
  "runtime error: invalid memory address or nil pointer dereference".

(** ** The libraries the program calls *)

(** A [*http.Request]. *)
Record Request := { Method : string; URL : string }.

(** The member [k] of an object. *)
Fixpoint assoc (k : string) (ms : list (string * Json)) : option Json :=
  match ms with
  | [] => None
  | (k', v) :: ms => if decide (k' = k) then Some v else assoc k ms
  end.

Definition member (k : string) (doc : Json) : option Json :=
  match doc with
  | JObject ms => assoc k ms
  | JString _ => None
  end.

(** The string members of [metadata.annotations] of a patch document. *)
Definition patched_annotations (doc : Json) : list (string * string) :=
  match member "metadata" doc ≫= member "annotations" with
  | Some (JObject ms) =>
      omap (λ kv, match kv.2 with JString s => Some (kv.1, s) | JObject _ => None end) ms
  | _ => []
  end.

(** A merge patch of the annotations sets the members it names and keeps
    the others. *)
Definition merge_patch (doc : Json) (d : Deployment) : Deployment :=
  {| DLabels := DLabels d;
     DAnnotations := foldl (λ m kv, <[kv.1 := kv.2]> m) (DAnnotations d) (patched_annotations doc);
     ReadyReplicas := ReadyReplicas d |}.

(** The three [fmt.Sprintf] of the program that name an instance. *)
Definition continueCodeURL (teamname : string) : string :=
  "http://t-" +:+ teamname +:+ "-juiceshop:3000/rest/continue-code".

Definition applyURL (teamname continueCode : string) : string :=
  "http://t-" +:+ teamname +:+ "-juiceshop:3000/rest/continue-code/apply/" +:+ continueCode.

Definition deploymentName (teamname : string) : string :=
  "t-" +:+ teamname +:+ "-juiceshop".

Section Program.

Variable env : Env.

(** [http.NewRequest(method, url, body)]: the request, or the error of
    parsing the URL. *)
Definition http_NewRequest (method url : string) : M (string + Request) :=
  ret (match url_parse_error env url with
       | Some err => inl err
       | None => inr {| Method := method; URL := url |}
       end).

(** [http.DefaultClient.Do(req)]. The client reads [req.URL] first, so a
    nil request is a nil dereference inside the library. *)
Definition http_Do (req : option Request) : M DoResult :=
  match req with
  | None => panic nil_dereference
  | Some req =>
      λ w, {| trace := [HttpDo (Method req) (URL req)];
              final := tick w;
              result := Ok (round_trip env (clock w) (Method req) (URL req)) |}
  end.

(** [clientset.AppsV1().Deployments(namespace).List(opts)]: the error, or
    the deployments the selector matches. *)
Definition deployments_List (namespace selector : string) : M (string + list Deployment) :=
  λ w, {| trace := [DeploymentsList namespace selector];
          final := tick w;
          result := Ok (match list_error env (clock w) with
                        | Some err => inl err
                        | None =>
                            inr (filter (λ d, label_selects env selector (DLabels d) = true)
                                        (snd <$> map_to_list (deployments w)))
                        end) |}.

(** What the deployment API does with a patch at [w]: the error, or the
    deployments after it. A deployment that does not exist cannot be
    patched; the program sends merge patches only. *)
Definition patch_outcome (name : string) (pt : PatchType) (doc : Json) (w : World)
  : string + gmap string Deployment :=
  match patch_error env (clock w) name with
  | Some err => inl err
  | None =>
      match pt, deployments w !! name with
      | MergePatchType, Some d => inr (<[name := merge_patch doc d]> (deployments w))
      | MergePatchType, None => inl ("deployments.apps " +:+ name +:+ " not found")
      | _, _ => inl "patch type outside the model"
      end
  end.

(** [clientset.AppsV1().Deployments(namespace).Patch(name, pt, data)]: the
    error, if any. *)
Definition deployments_Patch (namespace name : string) (pt : PatchType) (doc : Json)
  : M (option string) :=
  λ w,
    {| trace := [DeploymentsPatch namespace name pt doc];
       final := {| clock := S (clock w);
                   deployments := match patch_outcome name pt doc w with
                                  | inl _ => deployments w
                                  | inr ds => ds
                                  end |};
       result := Ok (match patch_outcome name pt doc w with
                     | inl err => Some err
                     | inr _ => None
                     end) |}.

(** ** The program *)

(** [getCurrentContinueCode], lines 158-201. The deferred
    [res.Body.Close()] is set up on a response that is not nil and leaves
    no mark on the trace. *)
Definition getCurrentContinueCode (teamname : string) : M (option string) :=
  let url := continueCodeURL teamname in
  r <- http_NewRequest "GET" url ;;
  match r with
  | inl err =>
      log WARNING "Failed to create http request" ;;;
      log WARNING err ;;;
      ret None
  | inr req =>
      r <- http_Do (Some req) ;;
      match r with
      | DoErr err =>
          log WARNING "Failed to fetch continue code from juice shop." ;;;
          log WARNING err ;;;
          ret None
      | DoResp res =>
          if decide (StatusCode res = 200) then
            match Body res with
            | ReadErr _ =>
                log ERROR "Failed to read response body stream." ;;;
                ret None
            | ReadOk body =>
                match json_unmarshal env body with
                | inl err =>
                    log ERROR "Failed to parse json of a challenge status." ;;;
                    log ERROR err ;;;
                    ret None
                | inr continueCodePayload =>
                    log DEBUG ("Got current continue code: '"
                               +:+ ContinueCode continueCodePayload +:+ "'") ;;;
                    ret (Some (ContinueCode continueCodePayload))
                end
            end
          else
            log WARNING ("Unexpected response status code '"
                         +:+ pretty (StatusCode res) +:+ "'") ;;;
            ret None
      end
  end.

(** [applyContinueCode], lines 203-217. Neither error branch returns: after
    a failed [http.NewRequest] the nil request goes to [Do], and after a
    failed [Do] the deferred [res.Body.Close()] reads [res.Body] of a nil
    response when the [defer] statement is executed. *)
Definition applyContinueCode (teamname continueCode : string) : M unit :=
  let url := applyURL teamname continueCode in
  r <- http_NewRequest "PUT" url ;;
  req <- match r with
         | inl err =>
             log WARNING "Failed to create http request to set the current continue code" ;;;
             log WARNING err ;;;
             ret None
         | inr req => ret (Some req)
         end ;;
  r <- http_Do req ;;
  res <- match r with
         | DoErr err =>
             log WARNING "Failed to set the current continue code to juice shop." ;;;
             log WARNING err ;;;
             ret None
         | DoResp res => ret (Some res)
         end ;;
  match res with
  | None => panic nil_dereference
  | Some _ => ret tt
  end.

(** [cacheContinueCode], lines 232-256. [json.Marshal] cannot fail on a
    struct of strings, so its error branch is not reached. *)
Definition cacheContinueCode (teamname continueCode : string) : M unit :=
  log INFO ("Updating continue-code of team '" +:+ teamname +:+ "' to '"
            +:+ continueCode +:+ "'") ;;;
  let diff :=
    {| Metadata :=
         {| Annotations :=
              {| DiffContinueCode := continueCode;
                 DiffChallengesSolved := "42" |} |} |} in
  let jsonBytes := json_Marshal diff in
  log DEBUG "Json patch" ;;;
  emit (LogJson DEBUG jsonBytes) ;;;
  err <- deployments_Patch "default" (deploymentName teamname) MergePatchType jsonBytes ;;
  match err with
  | Some err =>
      log ERROR err ;;;
      panic "could not patch deployment"
  | None => ret tt
  end.

(** The body of the loop of [workOnProgressUpdates], lines 125-154. The
    chain of [if]s tests whether [lastContinueCode] is empty and whether
    [currentContinueCode] is nil, which are the four cases of the [match];
    [*currentContinueCode] is the code where the pointer is not nil and a
    panic where it is. The body yields what the local variable
    [currentContinueCode] holds when the iteration ends: the answer of the
    last fetch. *)
Definition workOnJob (job : ProgressUpdateJobs) : M (option string) :=
  log DEBUG ("Running ProgressUpdateJob for team '" +:+ Teamname job +:+ "'") ;;;
  log DEBUG "Fetching cached continue code" ;;;
  let lastContinueCode := LastContinueCode job in
  log DEBUG "Fetching current continue code" ;;;
  currentContinueCode <- getCurrentContinueCode (Teamname job) ;;
  match decide (lastContinueCode = ""), currentContinueCode with
  | left _, None =>
      log WARNING "Failed to fetch both current and cached continue code" ;;;
      ret currentContinueCode
  | left _, Some current =>
      log DEBUG "Did not find a cached continue code." ;;;
      log DEBUG "Last continue code was nil. This should only happen once per team." ;;;
      cacheContinueCode (Teamname job) current ;;;
      ret currentContinueCode
  | right _, None =>
      log DEBUG "Could not get current continue code. Juice Shop might be down. Sleeping and retrying in 5 sec" ;;;
      ret currentContinueCode
  | right _, Some current =>
      log DEBUG "Checking Difference between continue code" ;;;
      if decide (lastContinueCode ≠ current) then
        log DEBUG ("Continue codes differ (last vs current): (" +:+ lastContinueCode
                   +:+ " vs " +:+ current +:+ ")") ;;;
        log DEBUG "Applying cached continue code" ;;;
        log INFO ("Found new continue Code for Team '" +:+ Teamname job +:+ "'") ;;;
        applyContinueCode (Teamname job) lastContinueCode ;;;
        log DEBUG "ReFetching current continue code" ;;;
        currentContinueCode <- getCurrentContinueCode (Teamname job) ;;
        log DEBUG "Caching current continue code" ;;;
        match currentContinueCode with
        | None => panic nil_dereference
        | Some current => cacheContinueCode (Teamname job) current
        end ;;;
        ret currentContinueCode
      else
        log DEBUG "Continue codes are identical. Sleeping" ;;;
        ret currentContinueCode
  end.

(** [workOnProgressUpdates], lines 123-156, on the jobs the worker receives
    from the channel. *)
Fixpoint workOnProgressUpdates (progressUpdateJobs : list ProgressUpdateJobs) : M unit :=
  match progressUpdateJobs with
  | [] => ret tt
  | job :: rest =>
      workOnJob job ;;;
      workOnProgressUpdates rest
  end.

(** The job queued for an instance, lines 114-117. *)
Definition jobFor (instance : Deployment) : ProgressUpdateJobs :=
  {| Teamname := index (DLabels instance) "team";
     LastContinueCode := index (DAnnotations instance) continueCodeKey |}.

(** The loop over [juiceShops.Items], lines 105-118. [send] is the channel
    operation [progressUpdateJobs <- job]: the channel has no buffer, so
    the job sent is handed to a worker at once, and [send] stands for what
    happens until the sender goes on. *)
Fixpoint queueJobs (send : ProgressUpdateJobs → M unit) (items : list Deployment) : M unit :=
  match items with
  | [] => ret tt
  | instance :: items =>
      let teamname := index (DLabels instance) "team" in
      if decide (ReadyReplicas instance ≠ 1) then queueJobs send items
      else
        log DEBUG ("Found instance for team " +:+ teamname) ;;;
        send (jobFor instance) ;;;
        queueJobs send items
  end.

(** One round of the loop of [createProgressUpdateJobs], lines 92-119. *)
Definition discover (send : ProgressUpdateJobs → M unit) : M unit :=
  log DEBUG "Looking for Instances" ;;;
  r <- deployments_List "default" "app=juice-shop" ;;
  match r with
  | inl err => panic err
  | inr items =>
      log DEBUG ("Found " +:+ pretty (length items) +:+ " JuiceShop running") ;;;
      queueJobs send items ;;;
      emit (Sleep 5)
  end.

(** [createProgressUpdateJobs], lines 90-121, for a number of rounds. *)
Fixpoint createProgressUpdateJobs (send : ProgressUpdateJobs → M unit) (rounds : nat) : M unit :=
  match rounds with
  | O => ret tt
  | S rounds =>
      discover send ;;;
      createProgressUpdateJobs send rounds
  end.

(** The process with one worker that works on each job when it is sent. *)
Definition watchdog (rounds : nat) : M unit :=
  createProgressUpdateJobs (λ job, workOnProgressUpdates [job]) rounds.

End Program.

(** ** Reading traces *)

(** The calls of a trace: what is left without the log lines and sleeps. *)
Fixpoint calls (tr : list Event) : list Event :=
  match tr with
  | [] => []
  | e :: tr =>
      match e with
      | Log _ _ | LogJson _ _ | Sleep _ => calls tr
      | _ => e :: calls tr
      end
  end.

(** The trace has a line at level WARNING or ERROR. *)
Definition failure_logged (tr : list Event) : Prop :=
  ∃ msg, Log WARNING msg ∈ tr ∨ Log ERROR msg ∈ tr.

(** The log lines of a trace. *)
Fixpoint logged (tr : list Event) : list Event :=
  match tr with
  | [] => []
  | e :: tr =>
      match e with
      | Log _ _ | LogJson _ _ => e :: logged tr
      | _ => logged tr
      end
  end.

(** The instance of [teamname] answers a fetch at [w] with the code [c]:
    status 200 and a body that can be read and parsed. *)
Definition answers (env : Env) (teamname : string) (w : World) (c : string) : Prop :=
  ∃ res body payload,
    url_parse_error env (continueCodeURL teamname) = None
    ∧ round_trip env (clock w) "GET" (continueCodeURL teamname) = DoResp res
    ∧ StatusCode res = 200
    ∧ Body res = ReadOk body
    ∧ json_unmarshal env body = inr payload
    ∧ ContinueCode payload = c.

(** The ways a fetch at [w] fails. *)
Inductive fetch_failure (env : Env) (teamname : string) (w : World) : Prop :=
| request_failure err :
    url_parse_error env (continueCodeURL teamname) = Some err →
    fetch_failure env teamname w
| transport_failure err :
    round_trip env (clock w) "GET" (continueCodeURL teamname) = DoErr err →
    fetch_failure env teamname w
| status_failure res :
    round_trip env (clock w) "GET" (continueCodeURL teamname) = DoResp res →
    StatusCode res ≠ 200 →
    fetch_failure env teamname w
| read_failure res err :
    round_trip env (clock w) "GET" (continueCodeURL teamname) = DoResp res →
    Body res = ReadErr err →
    fetch_failure env teamname w
| parse_failure res body err :
    round_trip env (clock w) "GET" (continueCodeURL teamname) = DoResp res →
    Body res = ReadOk body →
    json_unmarshal env body = inl err →
    fetch_failure env teamname w.

(** The value of the continue-code annotation of the deployment of a team. *)
Definition durable (w : World) (teamname : string) : option string :=
  deployments w !! deploymentName teamname ≫= λ d, DAnnotations d !! continueCodeKey.

(** The three lines every job starts with. *)
Definition preamble (job : ProgressUpdateJobs) : list Event :=
  [Log DEBUG ("Running ProgressUpdateJob for team '" +:+ Teamname job +:+ "'");
   Log DEBUG "Fetching cached continue code";
   Log DEBUG "Fetching current continue code"].

(** The lines of the divergence branch from the first fetch to the apply. *)
Definition divergence_lines (job : ProgressUpdateJobs) (current : string) : list Event :=
  [HttpDo "GET" (continueCodeURL (Teamname job));
   Log DEBUG ("Got current continue code: '" +:+ current +:+ "'");
   Log DEBUG "Checking Difference between continue code";
   Log DEBUG ("Continue codes differ (last vs current): (" +:+ LastContinueCode job
              +:+ " vs " +:+ current +:+ ")");
   Log DEBUG "Applying cached continue code";
   Log INFO ("Found new continue Code for Team '" +:+ Teamname job +:+ "'")].

(** The document [cacheContinueCode] sends for a continue code. *)
Definition patchDocument (continueCode : string) : Json :=
  JObject [("metadata",
    JObject [("annotations",
      JObject [(continueCodeKey, JString continueCode);
               (challengesSolvedKey, JString "42")])])].

(** ** Scenarios *)

Module Scenario.

(** The double quote. *)
Definition quote : string := String (Ascii.ascii_of_nat 34) "".

(** The text of the JSON object whose one member, continueCode, is the
    string [c]. *)
Definition body_of (c : string) : string :=
  "{" +:+ quote +:+ "continueCode" +:+ quote +:+ ":" +:+ quote +:+ c +:+ quote +:+ "}".

Definition ok (c : string) : DoResult :=
  DoResp {| StatusCode := 200; Body := ReadOk (body_of c) |}.

Definition status (n : Z) : DoResult :=
  DoResp {| StatusCode := n; Body := ReadOk "" |}.

Definition refused : DoResult := DoErr "dial tcp: connect: connection refused".

(** An environment that answers the n-th call with the n-th entry of
    [script] (and refuses the connection afterwards), decodes the bodies
    of the codes of [codes], and lets the deployment API fail at the
    calls of [failing]. *)
Definition scripted (script : list DoResult) (codes : list string) (failing : list nat)
  : Env :=
  {| url_parse_error := λ _, None;
     round_trip := λ n _ _, default refused (script !! n);
     json_unmarshal := λ body,
       match list_find (λ c, body_of c = body) codes with
       | Some (_, c) => inr {| ContinueCode := c |}
       | None => inl "invalid character looking for beginning of value"
       end;
     label_selects := λ selector labels,
       bool_decide (selector = "app=juice-shop" ∧ labels !! "app" = Some "juice-shop");
     list_error := λ n, if decide (n ∈ failing) then Some "the server is unavailable" else None;
     patch_error := λ n _, if decide (n ∈ failing) then Some "the server is unavailable" else None |}.

(** The deployment of a team, ready, with its cached continue code. *)
Definition instance (teamname : string) (code : option string) : Deployment :=
  {| DLabels := <["app" := "juice-shop"]> (<["team" := teamname]> ∅);
     DAnnotations := match code with
                     | Some c => <[continueCodeKey := c]> ∅
                     | None => ∅
                     end;
     ReadyReplicas := 1 |}.

(** A cluster with the deployment of one team, before any call. *)
Definition cluster (teamname : string) (code : option string) : World :=
  {| clock := 0;
     deployments := <[deploymentName teamname := instance teamname code]> ∅ |}.

Definition job (teamname code : string) : ProgressUpdateJobs :=
  {| Teamname := teamname; LastContinueCode := code |}.

End Scenario.

(** ** The rest of the program *)

(** [homeDir], lines 38-43. [getenv] is [os.Getenv], which yields the empty
    string for a variable that is not set. *)
Definition homeDir (getenv : string → string) : string :=
  let h := getenv "HOME" in
  if decide (h ≠ "") then h else getenv "USERPROFILE".

(** The items of a listing the loop of lines 105-118 does not skip. *)
Definition ready (items : list Deployment) : list Deployment :=
  filter (λ d, ReadyReplicas d = 1) items.

(** Announcing and sending jobs one after the other. *)
Fixpoint sendAll (send : ProgressUpdateJobs → M unit) (jobs : list ProgressUpdateJobs)
  : M unit :=
  match jobs with
  | [] => ret tt
  | job :: jobs =>
      log DEBUG ("Found instance for team " +:+ Teamname job) ;;;
      send job ;;;
      sendAll send jobs
  end.

(** A deployment after a continue code has been cached on it. *)
Definition persisted (d : Deployment) (code : string) : Deployment :=
  {| DLabels := DLabels d;
     DAnnotations := <[challengesSolvedKey := "42"]>
                       (<[continueCodeKey := code]> (DAnnotations d));
     ReadyReplicas := ReadyReplicas d |}.

(** Two states of a deployment that differ at most in the two annotations
    the program writes. *)
Definition same_instance (d d' : Deployment) : Prop :=
  DLabels d' = DLabels d
  ∧ ReadyReplicas d' = ReadyReplicas d
  ∧ ∀ k, k ≠ continueCodeKey → k ≠ challengesSolvedKey →
         DAnnotations d' !! k = DAnnotations d !! k.

(** Two states of the namespace with the same deployments, each changed at
    most in these two annotations. *)
Definition same_fleet (ds ds' : gmap string Deployment) : Prop :=
  ∀ name, option_Forall2 same_instance (ds !! name) (ds' !! name).

(** A computation that keeps the deployments, up to these two
    annotations, whatever the state it starts in. *)
Definition keeps {A} (m : M A) : Prop :=
  ∀ w, same_fleet (deployments w) (deployments (final (m w))).

(** What the list call of a round yields at [w] when it does not fail. *)
Definition listed (env : Env) (w : World) : list Deployment :=
  filter (λ d, label_selects env "app=juice-shop" (DLabels d) = true)
         (snd <$> map_to_list (deployments w)).

(** The calls that read: the list call and the GET of a continue code. *)
Definition reads (e : Event) : Prop :=
  e = DeploymentsList "default" "app=juice-shop"
  ∨ ∃ teamname, e = HttpDo "GET" (continueCodeURL teamname).

(** Every ready instance the selector matches has a cached code, and
    answers every fetch with it; the list call does not fail. *)
Definition settled (env : Env) (ds : gmap string Deployment) : Prop :=
  (∀ n, list_error env n = None)
  ∧ ∀ name d,
      ds !! name = Some d →
      label_selects env "app=juice-shop" (DLabels d) = true →
      ReadyReplicas d = 1 →
      LastContinueCode (jobFor d) ≠ ""
      ∧ ∀ w, answers env (Teamname (jobFor d)) w (LastContinueCode (jobFor d)).

(** An environment in which every instance answers every request with the
    code [c], and nothing fails. *)
Definition steady (c : string) : Env :=
  {| url_parse_error := λ _, None;
     round_trip := λ _ _ _, Scenario.ok c;
     json_unmarshal := λ body,
       if decide (body = Scenario.body_of c) then inr {| ContinueCode := c |}
       else inl "invalid character looking for beginning of value";
     label_selects := λ selector labels,
       bool_decide (selector = "app=juice-shop" ∧ labels !! "app" = Some "juice-shop");
     list_error := λ _, None;
     patch_error := λ _ _, None |}.

(** ** Computations, step by step *)

(** Reduce the projections of the runs written out in the goal. *)
Ltac project := cbn [trace final result ret panic emit log].

Lemma bind_ok {A B} (m : M A) (f : A → M B) w a :
  result (m w) = Ok a →
  bind m f w = {| trace := trace (m w) ++ trace (f a (final (m w)));
                  final := final (f a (final (m w)));
                  result := result (f a (final (m w))) |}.
Proof. intros H. unfold bind. by rewrite H. Qed.

Lemma bind_panicked {A B} (m : M A) (f : A → M B) w msg :
  result (m w) = Panicked msg →
  bind m f w = {| trace := trace (m w); final := final (m w); result := Panicked msg |}.
Proof. intros H. unfold bind. by rewrite H. Qed.

Lemma bind_ret_l {A B} (a : A) (f : A → M B) w : bind (ret a) f w = f a w.
Proof. unfold bind, ret. simpl. by destruct (f a w). Qed.

Lemma bind_ext {A B} (m : M A) (f g : A → M B) w :
  (∀ a w', f a w' = g a w') → bind m f w = bind m g w.
Proof. intros H. unfold bind. destruct (result (m w)); [by rewrite H|done]. Qed.

Lemma bind_assoc {A B C} (m : M A) (f : A → M B) (g : B → M C) w :
  bind (bind m f) g w = bind m (λ a, bind (f a) g) w.
Proof.
  unfold bind. destruct (result (m w)) as [a|msg]; simpl; [|done].
  destruct (result (f a (final (m w)))); simpl; [|done].
  by rewrite app_assoc.
Qed.

Lemma bind_log {B} lvl msg (k : M B) w :
  bind (log lvl msg) (λ _, k) w =
  {| trace := Log lvl msg :: trace (k w); final := final (k w); result := result (k w) |}.
Proof. reflexivity. Qed.

Lemma calls_app tr1 tr2 : calls (tr1 ++ tr2) = calls tr1 ++ calls tr2.
Proof.
  induction tr1 as [|e tr1 IH]; [done|].
  destruct e; simpl; by rewrite ?IH.
Qed.


(** ** The fetch *)

Lemma failure_logged_here lvl msg tr1 tr2 :
  lvl = WARNING ∨ lvl = ERROR → failure_logged (tr1 ++ Log lvl msg :: tr2).
Proof.
  intros [-> | ->]; exists msg; [left | right];
    apply elem_of_app; right; apply elem_of_cons; by left.
Qed.

Lemma answers_excludes_failure env teamname w c :
  answers env teamname w c → ¬ fetch_failure env teamname w.
Proof.
  intros (res & body & payload & Hurl & Hdo & Hst & Hbody & Hjson & _) Hfail.
  destruct Hfail; congruence.
Qed.

(** A fetch either gets the answer of the instance, with one GET and one
    DEBUG line, or fails, says so in the log and yields nil. *)
Lemma fetch_cases env teamname w :
  (∃ c, answers env teamname w c
        ∧ getCurrentContinueCode env teamname w =
          {| trace := [HttpDo "GET" (continueCodeURL teamname);
                       Log DEBUG ("Got current continue code: '" +:+ c +:+ "'")];
             final := tick w;
             result := Ok (Some c) |})
  ∨ (fetch_failure env teamname w
     ∧ result (getCurrentContinueCode env teamname w) = Ok None
     ∧ failure_logged (trace (getCurrentContinueCode env teamname w))
     ∧ logged (trace (getCurrentContinueCode env teamname w)) ≠ []
     ∧ deployments (final (getCurrentContinueCode env teamname w)) = deployments w
     ∧ (calls (trace (getCurrentContinueCode env teamname w)) = []
        ∨ calls (trace (getCurrentContinueCode env teamname w))
          = [HttpDo "GET" (continueCodeURL teamname)])).
Proof.
  unfold getCurrentContinueCode, http_NewRequest, http_Do, bind, log, emit, ret.
  simpl.
  destruct (url_parse_error env (continueCodeURL teamname)) as [err|] eqn:Hurl; simpl.
  { right. split; [by eapply request_failure|].
    repeat split; [|done|by left].
    by apply (failure_logged_here WARNING _ []); left. }
  destruct (round_trip env (clock w) "GET" (continueCodeURL teamname)) as [err|res] eqn:Hdo;
    simpl.
  { right. split; [by eapply transport_failure|].
    repeat split; [|done|by right].
    by apply (failure_logged_here WARNING _ [_]); left. }
  destruct (decide (StatusCode res = 200)) as [Hst|Hst]; simpl; cycle 1.
  { right. split; [by eapply status_failure|].
    repeat split; [|done|by right].
    by apply (failure_logged_here WARNING _ [_]); left. }
  destruct (Body res) as [body|err] eqn:Hbody; simpl; cycle 1.
  { right. split; [by eapply read_failure|].
    repeat split; [|done|by right].
    by apply (failure_logged_here ERROR _ [_]); right. }
  destruct (json_unmarshal env body) as [err|payload] eqn:Hjson; simpl.
  { right. split; [by eapply parse_failure|].
    repeat split; [|done|by right].
    by apply (failure_logged_here ERROR _ [_]); right. }
  left. exists (ContinueCode payload). split; [|done].
  by exists res, body, payload.
Qed.

Lemma fetch_calls_sent env teamname w :
  url_parse_error env (continueCodeURL teamname) = None →
  calls (trace (getCurrentContinueCode env teamname w))
  = [HttpDo "GET" (continueCodeURL teamname)].
Proof.
  intros Hurl.
  unfold getCurrentContinueCode, http_NewRequest, http_Do, bind, log, emit, ret.
  simpl. rewrite Hurl. simpl.
  destruct (round_trip env (clock w) "GET" (continueCodeURL teamname)) as [err|res]; [done|].
  simpl. destruct (decide (StatusCode res = 200)); [|done].
  destruct (Body res) as [body|err]; [|done].
  by destruct (json_unmarshal env body).
Qed.

Lemma fetch_some env teamname w c :
  result (getCurrentContinueCode env teamname w) = Ok (Some c) →
  getCurrentContinueCode env teamname w =
    {| trace := [HttpDo "GET" (continueCodeURL teamname);
                 Log DEBUG ("Got current continue code: '" +:+ c +:+ "'")];
       final := tick w;
       result := Ok (Some c) |}.
Proof.
  intros H. destruct (fetch_cases env teamname w) as [(c' & _ & E) | (_ & E & _)].
  - rewrite E in H. simpl in H. by simplify_eq.
  - congruence.
Qed.

Lemma fetch_none env teamname w :
  result (getCurrentContinueCode env teamname w) = Ok None →
  fetch_failure env teamname w
  ∧ failure_logged (trace (getCurrentContinueCode env teamname w))
  ∧ deployments (final (getCurrentContinueCode env teamname w)) = deployments w
  ∧ (calls (trace (getCurrentContinueCode env teamname w)) = []
     ∨ calls (trace (getCurrentContinueCode env teamname w))
       = [HttpDo "GET" (continueCodeURL teamname)]).
Proof.
  intros H. destruct (fetch_cases env teamname w) as [(c' & _ & E) | (? & _ & ? & _ & ? & ?)].
  - rewrite E in H. simpl in H. by simplify_eq.
  - done.
Qed.

Lemma fetch_total env teamname w :
  ∃ v, result (getCurrentContinueCode env teamname w) = Ok v.
Proof.
  destruct (fetch_cases env teamname w) as [(c & _ & E) | (_ & E & _)].
  - exists (Some c). by rewrite E.
  - by exists None.
Qed.

(** ** The persist *)

Lemma patch_outcome_accepted env name doc w ds :
  patch_outcome env name MergePatchType doc w = inr ds ↔
  patch_error env (clock w) name = None
  ∧ ∃ d, deployments w !! name = Some d ∧ ds = <[name := merge_patch doc d]> (deployments w).
Proof.
  unfold patch_outcome. split.
  - destruct (patch_error env (clock w) name); [done|].
    destruct (deployments w !! name) as [d|]; [|done].
    intros [= <-]. eauto.
  - intros (-> & d & -> & ->). done.
Qed.

Lemma patched_annotations_document code :
  patched_annotations (patchDocument code)
  = [(continueCodeKey, code); (challengesSolvedKey, "42")].
Proof. reflexivity. Qed.

Lemma merge_patch_document code d :
  DAnnotations (merge_patch (patchDocument code) d)
  = <[challengesSolvedKey := "42"]> (<[continueCodeKey := code]> (DAnnotations d)).
Proof. reflexivity. Qed.

Lemma merge_patch_continue_code code d :
  DAnnotations (merge_patch (patchDocument code) d) !! continueCodeKey = Some code.
Proof.
  rewrite merge_patch_document.
  rewrite lookup_insert_ne by done.
  apply lookup_insert_eq.
Qed.

Lemma cache_accepted env teamname code w ds :
  patch_outcome env (deploymentName teamname) MergePatchType (patchDocument code) w = inr ds →
  cacheContinueCode env teamname code w =
    {| trace := [Log INFO ("Updating continue-code of team '" +:+ teamname +:+ "' to '"
                           +:+ code +:+ "'");
                 Log DEBUG "Json patch";
                 LogJson DEBUG (patchDocument code);
                 DeploymentsPatch "default" (deploymentName teamname) MergePatchType
                   (patchDocument code)];
       final := {| clock := S (clock w); deployments := ds |};
       result := Ok tt |}.
Proof.
  intros H. unfold cacheContinueCode, deployments_Patch, bind, log, emit, ret. simpl.
  change (json_Marshal _) with (patchDocument code). by rewrite H.
Qed.

Lemma cache_rejected env teamname code w err :
  patch_outcome env (deploymentName teamname) MergePatchType (patchDocument code) w = inl err →
  cacheContinueCode env teamname code w =
    {| trace := [Log INFO ("Updating continue-code of team '" +:+ teamname +:+ "' to '"
                           +:+ code +:+ "'");
                 Log DEBUG "Json patch";
                 LogJson DEBUG (patchDocument code);
                 DeploymentsPatch "default" (deploymentName teamname) MergePatchType
                   (patchDocument code);
                 Log ERROR err];
       final := tick w;
       result := Panicked "could not patch deployment" |}.
Proof.
  intros H. unfold cacheContinueCode, deployments_Patch, bind, log, emit, ret, panic. simpl.
  change (json_Marshal _) with (patchDocument code). by rewrite H.
Qed.

Lemma cache_calls env teamname code w :
  calls (trace (cacheContinueCode env teamname code w))
  = [DeploymentsPatch "default" (deploymentName teamname) MergePatchType (patchDocument code)].
Proof.
  destruct (patch_outcome env (deploymentName teamname) MergePatchType (patchDocument code) w)
    as [err|ds] eqn:H.
  - by rewrite (cache_rejected _ _ _ _ _ H).
  - by rewrite (cache_accepted _ _ _ _ _ H).
Qed.

Lemma cache_ok_durable env teamname code w :
  result (cacheContinueCode env teamname code w) = Ok tt →
  durable (final (cacheContinueCode env teamname code w)) teamname = Some code.
Proof.
  destruct (patch_outcome env (deploymentName teamname) MergePatchType (patchDocument code) w)
    as [err|ds] eqn:H.
  - by rewrite (cache_rejected _ _ _ _ _ H).
  - rewrite (cache_accepted _ _ _ _ _ H). intros _.
    apply patch_outcome_accepted in H as (_ & d & _ & ->).
    unfold durable. simpl. rewrite lookup_insert_eq. simpl.
    apply merge_patch_continue_code.
Qed.

(** ** The apply *)

Lemma apply_answered env teamname code w res :
  url_parse_error env (applyURL teamname code) = None →
  round_trip env (clock w) "PUT" (applyURL teamname code) = DoResp res →
  applyContinueCode env teamname code w =
    {| trace := [HttpDo "PUT" (applyURL teamname code)]; final := tick w; result := Ok tt |}.
Proof.
  intros Hurl Hdo.
  unfold applyContinueCode, http_NewRequest, http_Do, bind, log, emit, ret. simpl.
  rewrite Hurl. simpl. by rewrite Hdo.
Qed.

Lemma apply_transport_error env teamname code w err :
  url_parse_error env (applyURL teamname code) = None →
  round_trip env (clock w) "PUT" (applyURL teamname code) = DoErr err →
  applyContinueCode env teamname code w =
    {| trace := [HttpDo "PUT" (applyURL teamname code);
                 Log WARNING "Failed to set the current continue code to juice shop.";
                 Log WARNING err];
       final := tick w;
       result := Panicked nil_dereference |}.
Proof.
  intros Hurl Hdo.
  unfold applyContinueCode, http_NewRequest, http_Do, bind, log, emit, ret, panic. simpl.
  rewrite Hurl. simpl. by rewrite Hdo.
Qed.

Lemma apply_request_error env teamname code w err :
  url_parse_error env (applyURL teamname code) = Some err →
  applyContinueCode env teamname code w =
    {| trace := [Log WARNING "Failed to create http request to set the current continue code";
                 Log WARNING err];
       final := w;
       result := Panicked nil_dereference |}.
Proof.
  intros Hurl.
  unfold applyContinueCode, http_NewRequest, http_Do, bind, log, emit, ret, panic. simpl.
  by rewrite Hurl.
Qed.

(** An apply that returns has sent its PUT, got a response and logged
    nothing. *)
Lemma apply_ok env teamname code w :
  result (applyContinueCode env teamname code w) = Ok tt →
  applyContinueCode env teamname code w =
    {| trace := [HttpDo "PUT" (applyURL teamname code)]; final := tick w; result := Ok tt |}.
Proof.
  destruct (url_parse_error env (applyURL teamname code)) as [err|] eqn:Hurl.
  { by rewrite (apply_request_error _ _ _ _ _ Hurl). }
  destruct (round_trip env (clock w) "PUT" (applyURL teamname code)) as [err|res] eqn:Hdo.
  { by rewrite (apply_transport_error _ _ _ _ _ Hurl Hdo). }
  intros _. by eapply apply_answered.
Qed.

(** ** The worker, branch by branch *)


#[local] Opaque getCurrentContinueCode applyContinueCode cacheContinueCode.

Lemma work_both_absent env job w :
  LastContinueCode job = "" →
  result (getCurrentContinueCode env (Teamname job) w) = Ok None →
  workOnJob env job w =
    {| trace := preamble job ++ trace (getCurrentContinueCode env (Teamname job) w)
                ++ [Log WARNING "Failed to fetch both current and cached continue code"];
       final := final (getCurrentContinueCode env (Teamname job) w);
       result := Ok None |}.
Proof.
  intros Hlast Hfetch. unfold workOnJob. rewrite !bind_log, (bind_ok _ _ _ _ Hfetch).
  destruct (decide (LastContinueCode job = "")); [|done]. reflexivity.
Qed.

Lemma work_first_observation env job w current :
  LastContinueCode job = "" →
  result (getCurrentContinueCode env (Teamname job) w) = Ok (Some current) →
  workOnJob env job w =
    {| trace := preamble job
                ++ [HttpDo "GET" (continueCodeURL (Teamname job));
                    Log DEBUG ("Got current continue code: '" +:+ current +:+ "'");
                    Log DEBUG "Did not find a cached continue code.";
                    Log DEBUG "Last continue code was nil. This should only happen once per team."]
                ++ trace (cacheContinueCode env (Teamname job) current (tick w));
       final := final (cacheContinueCode env (Teamname job) current (tick w));
       result := match result (cacheContinueCode env (Teamname job) current (tick w)) with
                 | Ok _ => Ok (Some current)
                 | Panicked msg => Panicked msg
                 end |}.
Proof.
  intros Hlast Hfetch. unfold workOnJob. rewrite !bind_log, (bind_ok _ _ _ _ Hfetch).
  rewrite (fetch_some _ _ _ _ Hfetch). project.
  destruct (decide (LastContinueCode job = "")); [|done].
  rewrite !bind_log.
  destruct (result (cacheContinueCode env (Teamname job) current (tick w)))
    as [[]|msg] eqn:Hcache.
  - rewrite (bind_ok _ _ _ _ Hcache). project. by rewrite app_nil_r.
  - by rewrite (bind_panicked _ _ _ _ Hcache).
Qed.

Lemma work_unreachable env job w :
  LastContinueCode job ≠ "" →
  result (getCurrentContinueCode env (Teamname job) w) = Ok None →
  workOnJob env job w =
    {| trace := preamble job ++ trace (getCurrentContinueCode env (Teamname job) w)
                ++ [Log DEBUG "Could not get current continue code. Juice Shop might be down. Sleeping and retrying in 5 sec"];
       final := final (getCurrentContinueCode env (Teamname job) w);
       result := Ok None |}.
Proof.
  intros Hlast Hfetch. unfold workOnJob. rewrite !bind_log, (bind_ok _ _ _ _ Hfetch).
  destruct (decide (LastContinueCode job = "")); [done|]. reflexivity.
Qed.

Lemma work_in_sync env job w :
  LastContinueCode job ≠ "" →
  result (getCurrentContinueCode env (Teamname job) w) = Ok (Some (LastContinueCode job)) →
  workOnJob env job w =
    {| trace := preamble job
                ++ [HttpDo "GET" (continueCodeURL (Teamname job));
                    Log DEBUG ("Got current continue code: '" +:+ LastContinueCode job +:+ "'");
                    Log DEBUG "Checking Difference between continue code";
                    Log DEBUG "Continue codes are identical. Sleeping"];
       final := tick w;
       result := Ok (Some (LastContinueCode job)) |}.
Proof.
  intros Hlast Hfetch. unfold workOnJob. rewrite !bind_log, (bind_ok _ _ _ _ Hfetch).
  rewrite (fetch_some _ _ _ _ Hfetch). project.
  destruct (decide (LastContinueCode job = "")); [done|].
  rewrite !bind_log.
  destruct (decide (LastContinueCode job ≠ LastContinueCode job)); [done|]. reflexivity.
Qed.

Lemma work_apply_panics env job w current msg :
  LastContinueCode job ≠ "" →
  result (getCurrentContinueCode env (Teamname job) w) = Ok (Some current) →
  LastContinueCode job ≠ current →
  result (applyContinueCode env (Teamname job) (LastContinueCode job) (tick w)) = Panicked msg →
  workOnJob env job w =
    {| trace := preamble job ++ divergence_lines job current
                ++ trace (applyContinueCode env (Teamname job) (LastContinueCode job) (tick w));
       final := final (applyContinueCode env (Teamname job) (LastContinueCode job) (tick w));
       result := Panicked msg |}.
Proof.
  intros Hlast Hfetch Hne Happly. unfold workOnJob.
  rewrite !bind_log, (bind_ok _ _ _ _ Hfetch).
  rewrite (fetch_some _ _ _ _ Hfetch). project.
  destruct (decide (LastContinueCode job = "")); [done|].
  rewrite !bind_log.
  destruct (decide (LastContinueCode job ≠ current)); [|done].
  rewrite !bind_log. by rewrite (bind_panicked _ _ _ _ Happly).
Qed.

Lemma work_refetch_absent env job w current :
  LastContinueCode job ≠ "" →
  result (getCurrentContinueCode env (Teamname job) w) = Ok (Some current) →
  LastContinueCode job ≠ current →
  result (applyContinueCode env (Teamname job) (LastContinueCode job) (tick w)) = Ok tt →
  result (getCurrentContinueCode env (Teamname job) (tick (tick w))) = Ok None →
  workOnJob env job w =
    {| trace := preamble job ++ divergence_lines job current
                ++ [HttpDo "PUT" (applyURL (Teamname job) (LastContinueCode job));
                    Log DEBUG "ReFetching current continue code"]
                ++ trace (getCurrentContinueCode env (Teamname job) (tick (tick w)))
                ++ [Log DEBUG "Caching current continue code"];
       final := final (getCurrentContinueCode env (Teamname job) (tick (tick w)));
       result := Panicked nil_dereference |}.
Proof.
  intros Hlast Hfetch Hne Happly Hre. unfold workOnJob.
  rewrite !bind_log, (bind_ok _ _ _ _ Hfetch).
  rewrite (fetch_some _ _ _ _ Hfetch). project.
  destruct (decide (LastContinueCode job = "")); [done|].
  rewrite !bind_log.
  destruct (decide (LastContinueCode job ≠ current)); [|done].
  rewrite !bind_log. rewrite (bind_ok _ _ _ _ Happly).
  rewrite (apply_ok _ _ _ _ Happly). project.
  rewrite !bind_log. rewrite (bind_ok _ _ _ _ Hre). project.
  reflexivity.
Qed.

Lemma work_divergence env job w current refetched :
  LastContinueCode job ≠ "" →
  result (getCurrentContinueCode env (Teamname job) w) = Ok (Some current) →
  LastContinueCode job ≠ current →
  result (applyContinueCode env (Teamname job) (LastContinueCode job) (tick w)) = Ok tt →
  result (getCurrentContinueCode env (Teamname job) (tick (tick w))) = Ok (Some refetched) →
  workOnJob env job w =
    {| trace := preamble job ++ divergence_lines job current
                ++ [HttpDo "PUT" (applyURL (Teamname job) (LastContinueCode job));
                    Log DEBUG "ReFetching current continue code";
                    HttpDo "GET" (continueCodeURL (Teamname job));
                    Log DEBUG ("Got current continue code: '" +:+ refetched +:+ "'");
                    Log DEBUG "Caching current continue code"]
                ++ trace (cacheContinueCode env (Teamname job) refetched (tick (tick (tick w))));
       final := final (cacheContinueCode env (Teamname job) refetched (tick (tick (tick w))));
       result := match result (cacheContinueCode env (Teamname job) refetched
                                 (tick (tick (tick w)))) with
                 | Ok _ => Ok (Some refetched)
                 | Panicked msg => Panicked msg
                 end |}.
Proof.
  intros Hlast Hfetch Hne Happly Hre. unfold workOnJob.
  rewrite !bind_log, (bind_ok _ _ _ _ Hfetch).
  rewrite (fetch_some _ _ _ _ Hfetch). project.
  destruct (decide (LastContinueCode job = "")); [done|].
  rewrite !bind_log.
  destruct (decide (LastContinueCode job ≠ current)); [|done].
  rewrite !bind_log. rewrite (bind_ok _ _ _ _ Happly).
  rewrite (apply_ok _ _ _ _ Happly). project.
  rewrite !bind_log. rewrite (bind_ok _ _ _ _ Hre).
  rewrite (fetch_some _ _ _ _ Hre). project.
  rewrite !bind_log.
  destruct (result (cacheContinueCode env (Teamname job) refetched (tick (tick (tick w)))))
    as [[]|msg] eqn:Hcache.
  - rewrite (bind_ok _ _ _ _ Hcache). project. by rewrite app_nil_r.
  - by rewrite (bind_panicked _ _ _ _ Hcache).
Qed.

Lemma worker_stops_at_panic env job rest w msg :
  result (workOnJob env job w) = Panicked msg →
  workOnProgressUpdates env (job :: rest) w =
    {| trace := trace (workOnJob env job w);
       final := final (workOnJob env job w);
       result := Panicked msg |}.
Proof. intros H. simpl. by rewrite (bind_panicked _ _ _ _ H). Qed.

(** * The claims *)

(** ** Remote state client *)

(** C5: a fetch never panics and never hands an error to its caller. It
    yields the code parsed from the body when the GET is answered with
    status 200 and a body that can be read and parsed; on each failure
    (request construction, transport, a status other than 200, reading the
    body, parsing it) it yields nil and leaves a WARNING or ERROR line.
    Every fetch is of one of the two kinds. *)
Theorem getCurrentContinueCode_best_effort env teamname w :
  ∃ v, result (getCurrentContinueCode env teamname w) = Ok v
       ∧ (∀ c, answers env teamname w c → v = Some c)
       ∧ (fetch_failure env teamname w →
          v = None ∧ failure_logged (trace (getCurrentContinueCode env teamname w)))
       ∧ ((∃ c, answers env teamname w c) ∨ fetch_failure env teamname w).
Proof.
  destruct (fetch_cases env teamname w)
    as [(c & Hans & E) | (Hfail & E & Hlog & _)].
  - exists (Some c). split; [by rewrite E|]. split; [|split; [|by eauto]].
    + intros c' (res' & body' & payload' & _ & Hdo' & _ & Hbody' & Hjson' & <-).
      destruct Hans as (res & body & payload & _ & Hdo & _ & Hbody & Hjson & <-).
      congruence.
    + intros Hfail. by destruct (answers_excludes_failure _ _ _ _ Hans).
  - exists None. split; [done|]. split; [|split; [done|by right]].
    intros c Hans. by destruct (answers_excludes_failure _ _ _ _ Hans).
Qed.

Lemma getCurrentContinueCode_best_effort_witness :
  result (getCurrentContinueCode (Scenario.scripted [Scenario.ok "abc123"] ["abc123"] [])
            "alpha" (Scenario.cluster "alpha" None)) = Ok (Some "abc123")
  ∧ result (getCurrentContinueCode (Scenario.scripted [Scenario.status 503] [] [])
              "alpha" (Scenario.cluster "alpha" None)) = Ok None.
Proof.
  split.
  - destruct (getCurrentContinueCode_best_effort
                (Scenario.scripted [Scenario.ok "abc123"] ["abc123"] [])
                "alpha" (Scenario.cluster "alpha" None)) as (v & -> & Hans & _ & _).
    f_equal. apply Hans.
    exists {| StatusCode := 200; Body := ReadOk (Scenario.body_of "abc123") |},
      (Scenario.body_of "abc123"), {| ContinueCode := "abc123" |}.
    repeat split; vm_compute; reflexivity.
  - destruct (getCurrentContinueCode_best_effort
                (Scenario.scripted [Scenario.status 503] [] [])
                "alpha" (Scenario.cluster "alpha" None)) as (v & -> & _ & Hfail & _).
    f_equal. apply Hfail.
    apply (status_failure _ _ _ {| StatusCode := 503; Body := ReadOk "" |});
      vm_compute; [reflexivity | discriminate].
Defined.

(** C3, as stated, fails twice: a PUT answered with status 500 leaves no
    log line at all, and a PUT that fails in transport ends in a panic. *)
Lemma applyContinueCode_not_logged_only :
  logged (trace (applyContinueCode (Scenario.scripted [Scenario.status 500] [] [])
                   "beta" "old1" (Scenario.cluster "beta" (Some "old1")))) = []
  ∧ result (applyContinueCode (Scenario.scripted [Scenario.refused] [] [])
              "beta" "old1" (Scenario.cluster "beta" (Some "old1")))
    = Panicked nil_dereference.
Proof. split; vm_compute; reflexivity. Qed.

(** C3 (amended): when the request can be built and the PUT is answered,
    whatever the status, the apply logs nothing and returns to its caller;
    a transport error is logged in two WARNING lines. *)
Theorem applyContinueCode_returns_when_answered env teamname code w :
  url_parse_error env (applyURL teamname code) = None →
  (∀ res, round_trip env (clock w) "PUT" (applyURL teamname code) = DoResp res →
     applyContinueCode env teamname code w =
       {| trace := [HttpDo "PUT" (applyURL teamname code)];
          final := tick w;
          result := Ok tt |})
  ∧ (∀ err, round_trip env (clock w) "PUT" (applyURL teamname code) = DoErr err →
       logged (trace (applyContinueCode env teamname code w)) =
         [Log WARNING "Failed to set the current continue code to juice shop.";
          Log WARNING err]).
Proof.
  intros Hurl. split.
  - intros res Hdo. by eapply apply_answered.
  - intros err Hdo. by rewrite (apply_transport_error _ _ _ _ _ Hurl Hdo).
Qed.

Lemma applyContinueCode_returns_when_answered_witness :
  applyContinueCode (Scenario.scripted [Scenario.status 500] [] []) "beta" "old1"
    (Scenario.cluster "beta" (Some "old1")) =
    {| trace := [HttpDo "PUT" (applyURL "beta" "old1")];
       final := tick (Scenario.cluster "beta" (Some "old1"));
       result := Ok tt |}.
Proof.
  apply (applyContinueCode_returns_when_answered
           (Scenario.scripted [Scenario.status 500] [] []) "beta" "old1"
           (Scenario.cluster "beta" (Some "old1")) eq_refl
         ) with (res := {| StatusCode := 500; Body := ReadOk "" |}).
  reflexivity.
Defined.

(** ** Reconciliation worker *)

(** C4: in the divergence branch, when the fetch after the apply yields
    nil, the worker dereferences nil and panics: the job ends after its
    second GET without a patch, and the worker takes no further job. *)
Theorem refetch_absent_panics env job w current :
  LastContinueCode job ≠ "" →
  result (getCurrentContinueCode env (Teamname job) w) = Ok (Some current) →
  LastContinueCode job ≠ current →
  result (applyContinueCode env (Teamname job) (LastContinueCode job) (tick w)) = Ok tt →
  result (getCurrentContinueCode env (Teamname job) (tick (tick w))) = Ok None →
  result (workOnJob env job w) = Panicked nil_dereference
  ∧ calls (trace (workOnJob env job w)) =
      [HttpDo "GET" (continueCodeURL (Teamname job));
       HttpDo "PUT" (applyURL (Teamname job) (LastContinueCode job));
       HttpDo "GET" (continueCodeURL (Teamname job))]
  ∧ ∀ rest,
      workOnProgressUpdates env (job :: rest) w =
        {| trace := trace (workOnJob env job w);
           final := final (workOnJob env job w);
           result := Panicked nil_dereference |}.
Proof.
  intros Hlast Hfetch Hne Happly Hre.
  assert (Hrun := work_refetch_absent _ _ _ _ Hlast Hfetch Hne Happly Hre).
  assert (Hpanic : result (workOnJob env job w) = Panicked nil_dereference)
    by by rewrite Hrun.
  split; [done|]. split.
  - rewrite Hrun. project. rewrite !calls_app.
    assert (url_parse_error env (continueCodeURL (Teamname job)) = None) as Hurl.
    { destruct (fetch_cases env (Teamname job) w)
        as [(c & (? & ? & ? & ? & _) & _) | (_ & E & _)]; [done|congruence]. }
    by rewrite (fetch_calls_sent _ _ _ Hurl).
  - intros rest. by apply worker_stops_at_panic.
Qed.

Lemma refetch_absent_panics_witness :
  result (workOnJob (Scenario.scripted [Scenario.ok "new2"; Scenario.status 204;
                                        Scenario.status 503] ["new2"] [])
            (Scenario.job "beta" "old1") (Scenario.cluster "beta" (Some "old1")))
  = Panicked nil_dereference.
Proof.
  apply (refetch_absent_panics
           (Scenario.scripted [Scenario.ok "new2"; Scenario.status 204; Scenario.status 503]
              ["new2"] [])
           (Scenario.job "beta" "old1") (Scenario.cluster "beta" (Some "old1")) "new2");
    vm_compute; (reflexivity || discriminate).
Defined.

(** C1 does not hold of the code: C1 promises one apply, one fetch and one
    persist for every job of the divergence branch. With a deployment
    caching old1 and an instance reporting new2, a second fetch answered
    with status 503 ends the job in a panic after the second GET, and an
    apply that fails in transport ends it in a panic after the PUT; no
    patch is sent in either case. *)
Theorem divergence_without_persist :
  let w := Scenario.cluster "beta" (Some "old1") in
  let job := Scenario.job "beta" "old1" in
  let lost := Scenario.scripted [Scenario.ok "new2"; Scenario.status 204;
                                 Scenario.status 503] ["new2"] [] in
  let down := Scenario.scripted [Scenario.ok "new2"; Scenario.refused] ["new2"] [] in
  (result (workOnJob lost job w) = Panicked nil_dereference
   ∧ calls (trace (workOnJob lost job w)) =
       [HttpDo "GET" (continueCodeURL "beta");
        HttpDo "PUT" (applyURL "beta" "old1");
        HttpDo "GET" (continueCodeURL "beta")])
  ∧ (result (workOnJob down job w) = Panicked nil_dereference
     ∧ calls (trace (workOnJob down job w)) =
         [HttpDo "GET" (continueCodeURL "beta");
          HttpDo "PUT" (applyURL "beta" "old1")]).
Proof. vm_compute. done. Qed.

(** Where the apply returns and the second fetch is answered, the calls of
    the divergence branch are a GET, the PUT of the cached code, a second
    GET and the patch with the code of the second answer, in this order. *)
Lemma divergence_calls env job w current refetched :
  LastContinueCode job ≠ "" →
  result (getCurrentContinueCode env (Teamname job) w) = Ok (Some current) →
  LastContinueCode job ≠ current →
  result (applyContinueCode env (Teamname job) (LastContinueCode job) (tick w)) = Ok tt →
  result (getCurrentContinueCode env (Teamname job) (tick (tick w))) = Ok (Some refetched) →
  calls (trace (workOnJob env job w)) =
    [HttpDo "GET" (continueCodeURL (Teamname job));
     HttpDo "PUT" (applyURL (Teamname job) (LastContinueCode job));
     HttpDo "GET" (continueCodeURL (Teamname job));
     DeploymentsPatch "default" (deploymentName (Teamname job)) MergePatchType
       (patchDocument refetched)].
Proof.
  intros Hlast Hfetch Hne Happly Hre.
  rewrite (work_divergence _ _ _ _ _ Hlast Hfetch Hne Happly Hre). project.
  rewrite !calls_app, cache_calls. reflexivity.
Qed.

(** C6: a job without a cached code whose fetch is answered with [current]
    sends one GET and one merge patch that carries [current], and no PUT;
    the job succeeds exactly when the deployment API accepts the patch, and
    the cached code is [current] then. *)
Theorem first_observation_persisted env job w current :
  LastContinueCode job = "" →
  result (getCurrentContinueCode env (Teamname job) w) = Ok (Some current) →
  calls (trace (workOnJob env job w)) =
    [HttpDo "GET" (continueCodeURL (Teamname job));
     DeploymentsPatch "default" (deploymentName (Teamname job)) MergePatchType
       (patchDocument current)]
  ∧ (result (workOnJob env job w) = Ok (Some current) ↔
     ∃ ds, patch_outcome env (deploymentName (Teamname job)) MergePatchType
             (patchDocument current) (tick w) = inr ds)
  ∧ (result (workOnJob env job w) = Ok (Some current) →
     durable (final (workOnJob env job w)) (Teamname job) = Some current).
Proof.
  intros Hlast Hfetch.
  rewrite (work_first_observation _ _ _ _ Hlast Hfetch). project.
  split; [by rewrite !calls_app, cache_calls|].
  destruct (patch_outcome env (deploymentName (Teamname job)) MergePatchType
              (patchDocument current) (tick w)) as [err|ds] eqn:Hpatch.
  - rewrite (cache_rejected _ _ _ _ _ Hpatch). project.
    split; [|done]. split; [done|]. by intros [ds ?].
  - pose proof (cache_ok_durable env (Teamname job) current (tick w)) as Hdur.
    rewrite (cache_accepted _ _ _ _ _ Hpatch) in Hdur |- *. project.
    split; [split; eauto|]. intros _. by apply Hdur.
Qed.

Lemma first_observation_persisted_witness :
  durable (final (workOnJob (Scenario.scripted [Scenario.ok "abc123"] ["abc123"] [])
                    (Scenario.job "alpha" "") (Scenario.cluster "alpha" None)))
    "alpha" = Some "abc123".
Proof.
  apply (first_observation_persisted
           (Scenario.scripted [Scenario.ok "abc123"] ["abc123"] [])
           (Scenario.job "alpha" "") (Scenario.cluster "alpha" None) "abc123");
    vm_compute; reflexivity.
Defined.

(** C7: a job with a cached code whose fetch yields nil returns without a
    panic; it sends no patch and no PUT (its only call, if any, is the
    GET), the failure is on the log at WARNING or ERROR, and no deployment
    changes. *)
Theorem unreachable_no_action env job w :
  LastContinueCode job ≠ "" →
  result (getCurrentContinueCode env (Teamname job) w) = Ok None →
  result (workOnJob env job w) = Ok None
  ∧ (calls (trace (workOnJob env job w)) = []
     ∨ calls (trace (workOnJob env job w)) = [HttpDo "GET" (continueCodeURL (Teamname job))])
  ∧ failure_logged (trace (workOnJob env job w))
  ∧ deployments (final (workOnJob env job w)) = deployments w.
Proof.
  intros Hlast Hfetch.
  destruct (fetch_none _ _ _ Hfetch) as (_ & (msg & Hlog) & Hdeps & Hcalls).
  rewrite (work_unreachable _ _ _ Hlast Hfetch). project.
  split; [done|]. split; [|split; [|done]].
  - rewrite !calls_app. simpl. rewrite app_nil_r. done.
  - exists msg. rewrite !elem_of_app. destruct Hlog; [left | right]; right; by left.
Qed.

Lemma unreachable_no_action_witness :
  deployments (final (workOnJob (Scenario.scripted [Scenario.refused] [] [])
                        (Scenario.job "delta" "old1")
                        (Scenario.cluster "delta" (Some "old1"))))
  = deployments (Scenario.cluster "delta" (Some "old1")).
Proof.
  apply (unreachable_no_action (Scenario.scripted [Scenario.refused] [] [])
           (Scenario.job "delta" "old1") (Scenario.cluster "delta" (Some "old1")));
    vm_compute; (reflexivity || discriminate).
Defined.

Lemma fetch_some_answers env teamname w c :
  result (getCurrentContinueCode env teamname w) = Ok (Some c) →
  answers env teamname w c.
Proof.
  intros H. destruct (fetch_cases env teamname w) as [(c' & Hans & E) | (_ & E & _)].
  - rewrite E in H. simpl in H. by simplify_eq.
  - congruence.
Qed.

Lemma index_present (m : gmap string string) k :
  index m k ≠ "" → m !! k = Some (index m k).
Proof. unfold index. by destruct (m !! k). Qed.

(** C2: take an instance registered under the name the watchdog patches
    and the job queued for it. When the worker gets through the job
    without a panic, either the fetch yielded nil and no deployment has
    changed, or the cached continue code is now the code the instance
    reported last: the one of the first fetch when no apply was sent, the
    one of the fetch after the apply otherwise. *)
Theorem reconciled_or_unreachable env instance w live :
  let job := jobFor instance in
  let run := workOnJob env job w in
  deployments w !! deploymentName (Teamname job) = Some instance →
  result run = Ok live →
  match live with
  | Some c =>
      durable (final run) (Teamname job) = Some c
      ∧ ((answers env (Teamname job) w c
          ∧ (calls (trace run) = [HttpDo "GET" (continueCodeURL (Teamname job))]
             ∨ calls (trace run) =
                 [HttpDo "GET" (continueCodeURL (Teamname job));
                  DeploymentsPatch "default" (deploymentName (Teamname job)) MergePatchType
                    (patchDocument c)]))
         ∨ (answers env (Teamname job) (tick (tick w)) c
            ∧ calls (trace run) =
                [HttpDo "GET" (continueCodeURL (Teamname job));
                 HttpDo "PUT" (applyURL (Teamname job) (LastContinueCode job));
                 HttpDo "GET" (continueCodeURL (Teamname job));
                 DeploymentsPatch "default" (deploymentName (Teamname job)) MergePatchType
                   (patchDocument c)]))
  | None =>
      result (getCurrentContinueCode env (Teamname job) w) = Ok None
      ∧ deployments (final run) = deployments w
  end.
Proof.
  intros job run Hreg. subst run.
  destruct (fetch_total env (Teamname job) w) as [[current|] Hfetch].
  - destruct (decide (LastContinueCode job = "")) as [Hlast|Hlast].
    { (* first observation *)
      pose proof (cache_ok_durable env (Teamname job) current (tick w)) as Hdur.
      rewrite (work_first_observation _ _ _ _ Hlast Hfetch). project.
      destruct (result (cacheContinueCode env (Teamname job) current (tick w)))
        as [[]|msg] eqn:Hcache; [|done].
      intros [= <-]. split; [by apply Hdur|].
      left. split; [by apply fetch_some_answers|].
      right. by rewrite !calls_app, cache_calls. }
    destruct (decide (LastContinueCode job = current)) as [<-|Hne].
    { (* in sync *)
      rewrite (work_in_sync _ _ _ Hlast Hfetch). project.
      intros [= <-]. split.
      - unfold durable. change (deployments (tick w)) with (deployments w).
        rewrite Hreg. by apply index_present.
      - left. split; [by apply fetch_some_answers|]. by left. }
    (* divergence *)
    destruct (result (applyContinueCode env (Teamname job) (LastContinueCode job) (tick w)))
      as [[]|msg] eqn:Happly; cycle 1.
    { by rewrite (work_apply_panics _ _ _ _ _ Hlast Hfetch Hne Happly). }
    destruct (fetch_total env (Teamname job) (tick (tick w))) as [[refetched|] Hre]; cycle 1.
    { by rewrite (work_refetch_absent _ _ _ _ Hlast Hfetch Hne Happly Hre). }
    pose proof (cache_ok_durable env (Teamname job) refetched (tick (tick (tick w)))) as Hdur.
    pose proof (divergence_calls _ _ _ _ _ Hlast Hfetch Hne Happly Hre) as Hcalls.
    rewrite (work_divergence _ _ _ _ _ Hlast Hfetch Hne Happly Hre) in Hcalls |- *.
    project.
    destruct (result (cacheContinueCode env (Teamname job) refetched (tick (tick (tick w)))))
      as [[]|msg] eqn:Hcache; [|done].
    intros [= <-]. split; [by apply Hdur|].
    right. split; [by apply fetch_some_answers|]. exact Hcalls.
  - destruct (fetch_none _ _ _ Hfetch) as (_ & _ & Hdeps & _).
    destruct (decide (LastContinueCode job = "")) as [Hlast|Hlast].
    + rewrite (work_both_absent _ _ _ Hlast Hfetch). project. by intros [= <-].
    + rewrite (work_unreachable _ _ _ Hlast Hfetch). project. by intros [= <-].
Qed.

Lemma reconciled_or_unreachable_witness :
  durable (final (workOnJob
                    (Scenario.scripted [Scenario.ok "new2"; Scenario.status 204;
                                        Scenario.ok "old1"] ["new2"; "old1"] [])
                    (jobFor (Scenario.instance "beta" (Some "old1")))
                    (Scenario.cluster "beta" (Some "old1"))))
    "beta" = Some "old1".
Proof.
  apply (reconciled_or_unreachable
           (Scenario.scripted [Scenario.ok "new2"; Scenario.status 204; Scenario.ok "old1"]
              ["new2"; "old1"] [])
           (Scenario.instance "beta" (Some "old1"))
           (Scenario.cluster "beta" (Some "old1")) (Some "old1"));
    vm_compute; reflexivity.
Defined.

(** ** Fleet directory *)

Lemma patch_error_outcome env name doc w err :
  result (deployments_Patch env "default" name MergePatchType doc w) = Ok (Some err) →
  patch_outcome env name MergePatchType doc w = inl err.
Proof.
  unfold deployments_Patch. simpl.
  destruct (patch_outcome env name MergePatchType doc w); [|done].
  by intros [= ->].
Qed.

Lemma rounds_add env send k n w :
  createProgressUpdateJobs env send (k + n) w =
  bind (createProgressUpdateJobs env send k) (λ _, createProgressUpdateJobs env send n) w.
Proof.
  revert w. induction k as [|k IH]; intros w.
  - symmetry. apply (bind_ret_l tt).
  - simpl. rewrite bind_assoc. by apply bind_ext.
Qed.

Lemma discover_list_error env send w err :
  list_error env (clock w) = Some err →
  discover env send w =
    {| trace := [Log DEBUG "Looking for Instances";
                 DeploymentsList "default" "app=juice-shop"];
       final := tick w;
       result := Panicked err |}.
Proof.
  intros Hlist. unfold discover, deployments_List, bind, log, emit, panic.
  simpl. by rewrite Hlist.
Qed.

(** C8: an error of the list call ends the discovery loop, and with it
    the process, in a panic, in whichever round it occurs: nothing follows
    the list call, whatever the number of rounds still to come. An error of
    the patch ends [cacheContinueCode] in a panic after one ERROR line,
    without a second patch, and the worker that called it takes no further
    job. *)
Theorem directory_failures_are_fatal env w err :
  (∀ send before after,
     let sofar := createProgressUpdateJobs env send before w in
     result sofar = Ok tt →
     list_error env (clock (final sofar)) = Some err →
     createProgressUpdateJobs env send (before + S after) w =
       {| trace := trace sofar ++ [Log DEBUG "Looking for Instances";
                                   DeploymentsList "default" "app=juice-shop"];
          final := tick (final sofar);
          result := Panicked err |})
  ∧ (∀ teamname code,
       result (deployments_Patch env "default" (deploymentName teamname) MergePatchType
                 (patchDocument code) w) = Ok (Some err) →
       result (cacheContinueCode env teamname code w) = Panicked "could not patch deployment"
       ∧ logged (trace (cacheContinueCode env teamname code w)) =
           [Log INFO ("Updating continue-code of team '" +:+ teamname +:+ "' to '"
                      +:+ code +:+ "'");
            Log DEBUG "Json patch";
            LogJson DEBUG (patchDocument code);
            Log ERROR err]
       ∧ calls (trace (cacheContinueCode env teamname code w)) =
           [DeploymentsPatch "default" (deploymentName teamname) MergePatchType
              (patchDocument code)])
  ∧ (∀ job current rest,
       LastContinueCode job = "" →
       result (getCurrentContinueCode env (Teamname job) w) = Ok (Some current) →
       result (deployments_Patch env "default" (deploymentName (Teamname job)) MergePatchType
                 (patchDocument current) (tick w)) = Ok (Some err) →
       result (workOnProgressUpdates env (job :: rest) w)
       = Panicked "could not patch deployment").
Proof.
  split; [|split].
  - intros send before after sofar Hsofar Hlist. subst sofar.
    rewrite rounds_add, (bind_ok _ _ _ _ Hsofar).
    change (createProgressUpdateJobs env send (S after))
      with (bind (discover env send) (λ _, createProgressUpdateJobs env send after)).
    rewrite (bind_panicked _ _ _ err); by rewrite (discover_list_error _ _ _ _ Hlist).
  - intros teamname code Hpatch. apply patch_error_outcome in Hpatch.
    by rewrite (cache_rejected _ _ _ _ _ Hpatch).
  - intros job current rest Hlast Hfetch Hpatch. apply patch_error_outcome in Hpatch.
    assert (result (workOnJob env job w) = Panicked "could not patch deployment") as Hjob.
    { rewrite (work_first_observation _ _ _ _ Hlast Hfetch). project.
      by rewrite (cache_rejected _ _ _ _ _ Hpatch). }
    by rewrite (worker_stops_at_panic _ _ _ _ _ Hjob).
Qed.

Lemma directory_failures_are_fatal_witness :
  result (watchdog (Scenario.scripted [Scenario.refused; Scenario.ok "abc123"] ["abc123"]
                      [2%nat])
            5 (Scenario.cluster "alpha" (Some "abc123")))
  = Panicked "the server is unavailable"
  ∧ result (cacheContinueCode (Scenario.scripted [] [] [0%nat]) "alpha" "abc123"
              (Scenario.cluster "alpha" None))
    = Panicked "could not patch deployment".
Proof.
  split.
  - pose proof (directory_failures_are_fatal
                  (Scenario.scripted [Scenario.refused; Scenario.ok "abc123"] ["abc123"]
                     [2%nat])
                  (Scenario.cluster "alpha" (Some "abc123")) "the server is unavailable")
      as (Hlist & _).
    unfold watchdog. rewrite (Hlist _ 1%nat 3%nat); [reflexivity | |]; vm_compute; reflexivity.
  - pose proof (directory_failures_are_fatal (Scenario.scripted [] [] [0%nat])
                  (Scenario.cluster "alpha" None) "the server is unavailable")
      as (_ & Hpatch & _).
    apply Hpatch. vm_compute. reflexivity.
Defined.

(** C9: whatever the team, the code and the state, [cacheContinueCode]
    sends one merge patch to the deployment of the team, whose document
    sets two annotations: the continue code to the code given and the
    solved challenges to the constant 42. A deployment that takes the
    patch keeps its labels, its replicas and its other annotations. *)
Theorem persist_writes_two_annotations env teamname code w :
  calls (trace (cacheContinueCode env teamname code w)) =
    [DeploymentsPatch "default" (deploymentName teamname) MergePatchType
       (JObject [("metadata",
          JObject [("annotations",
            JObject [("multi-juicer.iteratec.dev/continueCode", JString code);
                     ("multi-juicer.iteratec.dev/challengesSolved", JString "42")])])])]
  ∧ ∀ d,
      patch_error env (clock w) (deploymentName teamname) = None →
      deployments w !! deploymentName teamname = Some d →
      result (cacheContinueCode env teamname code w) = Ok tt
      ∧ deployments (final (cacheContinueCode env teamname code w)) =
          <[deploymentName teamname :=
              {| DLabels := DLabels d;
                 DAnnotations :=
                   <["multi-juicer.iteratec.dev/challengesSolved" := "42"]>
                     (<["multi-juicer.iteratec.dev/continueCode" := code]> (DAnnotations d));
                 ReadyReplicas := ReadyReplicas d |}]> (deployments w).
Proof.
  split; [apply cache_calls|].
  intros d Herr Hd.
  assert (patch_outcome env (deploymentName teamname) MergePatchType (patchDocument code) w
          = inr (<[deploymentName teamname := merge_patch (patchDocument code) d]>
                   (deployments w))) as Hpatch.
  { apply patch_outcome_accepted. eauto. }
  by rewrite (cache_accepted _ _ _ _ _ Hpatch).
Qed.

Lemma persist_writes_two_annotations_witness :
  result (cacheContinueCode (Scenario.scripted [] [] []) "alpha" "abc123"
            (Scenario.cluster "alpha" None)) = Ok tt.
Proof.
  apply (persist_writes_two_annotations (Scenario.scripted [] [] []) "alpha" "abc123"
           (Scenario.cluster "alpha" None))
    with (d := Scenario.instance "alpha" None); vm_compute; reflexivity.
Defined.

(** ** Absent and empty *)

(** C10: the job queued for an instance without the continue-code
    annotation and the job queued for an instance of the same team whose
    annotation is the empty string are the same job, so the worker does
    the same with both, and what it does is one of the two branches for a
    missing cached code. An answer with status 200 whose continue code is
    the empty string counts as a code: the fetch yields it, and a job
    without a cached code goes on to persist it. *)
Theorem absent_and_empty_alike env (missing empty : Deployment) w :
  index (DLabels missing) "team" = index (DLabels empty) "team" →
  DAnnotations missing !! continueCodeKey = None →
  DAnnotations empty !! continueCodeKey = Some "" →
  jobFor missing = jobFor empty
  ∧ workOnJob env (jobFor missing) w = workOnJob env (jobFor empty) w
  ∧ (Log WARNING "Failed to fetch both current and cached continue code"
       ∈ trace (workOnJob env (jobFor empty) w)
     ∨ Log DEBUG "Did not find a cached continue code."
       ∈ trace (workOnJob env (jobFor empty) w))
  ∧ (answers env (Teamname (jobFor empty)) w "" →
     result (getCurrentContinueCode env (Teamname (jobFor empty)) w) = Ok (Some "")
     ∧ calls (trace (workOnJob env (jobFor empty) w)) =
         [HttpDo "GET" (continueCodeURL (Teamname (jobFor empty)));
          DeploymentsPatch "default" (deploymentName (Teamname (jobFor empty)))
            MergePatchType (patchDocument "")]).
Proof.
  intros Hteam Hmissing Hempty.
  assert (jobFor missing = jobFor empty) as Hjob.
  { unfold jobFor. rewrite Hteam. unfold index. by rewrite Hmissing, Hempty. }
  assert (LastContinueCode (jobFor empty) = "") as Hlast.
  { unfold jobFor, index. simpl. by rewrite Hempty. }
  split; [done|]. split; [by rewrite Hjob|]. split.
  - destruct (fetch_total env (Teamname (jobFor empty)) w) as [[current|] Hfetch].
    + right. rewrite (work_first_observation _ _ _ _ Hlast Hfetch). project.
      rewrite !elem_of_app. right. left. rewrite !elem_of_cons. tauto.
    + left. rewrite (work_both_absent _ _ _ Hlast Hfetch). project.
      rewrite !elem_of_app. right. right. by apply list_elem_of_singleton.
  - intros Hans.
    assert (result (getCurrentContinueCode env (Teamname (jobFor empty)) w) = Ok (Some ""))
      as Hfetch.
    { destruct (fetch_cases env (Teamname (jobFor empty)) w)
        as [(c & Hc & E) | (Hfail & _)].
      - rewrite E. simpl. do 2 f_equal.
        destruct Hans as (? & ? & ? & _ & ? & _ & ? & ? & ?).
        destruct Hc as (? & ? & ? & _ & ? & _ & ? & ? & ?). congruence.
      - by destruct (answers_excludes_failure _ _ _ _ Hans). }
    split; [done|].
    rewrite (work_first_observation _ _ _ _ Hlast Hfetch). project.
    by rewrite !calls_app, cache_calls.
Qed.

Lemma absent_and_empty_alike_witness :
  jobFor (Scenario.instance "alpha" None) = jobFor (Scenario.instance "alpha" (Some "")).
Proof.
  apply (absent_and_empty_alike (Scenario.scripted [] [] [])
           (Scenario.instance "alpha" None) (Scenario.instance "alpha" (Some ""))
           (Scenario.cluster "alpha" None));
    vm_compute; reflexivity.
Defined.

(** * Further properties *)

(** ** One job, in full *)

Lemma answers_functional env teamname w c c' :
  answers env teamname w c → answers env teamname w c' → c = c'.
Proof.
  intros (res & body & payload & _ & Hdo & _ & Hbody & Hjson & <-)
         (res' & body' & payload' & _ & Hdo' & _ & Hbody' & Hjson' & <-).
  congruence.
Qed.

Lemma cache_outcome env teamname code w :
  (∃ d, deployments w !! deploymentName teamname = Some d
        ∧ result (cacheContinueCode env teamname code w) = Ok tt
        ∧ deployments (final (cacheContinueCode env teamname code w))
          = <[deploymentName teamname := persisted d code]> (deployments w))
  ∨ (result (cacheContinueCode env teamname code w) = Panicked "could not patch deployment"
     ∧ deployments (final (cacheContinueCode env teamname code w)) = deployments w).
Proof.
  destruct (patch_outcome env (deploymentName teamname) MergePatchType (patchDocument code) w)
    as [err|ds] eqn:H.
  - right. by rewrite (cache_rejected _ _ _ _ _ H).
  - left. rewrite (cache_accepted _ _ _ _ _ H).
    apply patch_outcome_accepted in H as (_ & d & Hd & ->).
    by exists d.
Qed.

Lemma apply_panics env teamname code w msg :
  result (applyContinueCode env teamname code w) = Panicked msg →
  msg = nil_dereference
  ∧ deployments (final (applyContinueCode env teamname code w)) = deployments w
  ∧ (calls (trace (applyContinueCode env teamname code w)) = []
     ∨ calls (trace (applyContinueCode env teamname code w))
       = [HttpDo "PUT" (applyURL teamname code)]).
Proof.
  destruct (url_parse_error env (applyURL teamname code)) as [err|] eqn:Hurl.
  { rewrite (apply_request_error _ _ _ _ _ Hurl). intros [= <-]. simpl. by eauto. }
  destruct (round_trip env (clock w) "PUT" (applyURL teamname code)) as [err|res] eqn:Hdo.
  { rewrite (apply_transport_error _ _ _ _ _ Hurl Hdo). intros [= <-]. simpl. by eauto. }
  by rewrite (apply_answered _ _ _ _ _ Hurl Hdo).
Qed.

(** What a job comes to, along the decision of lines 131-154: the fetch
    yields nil and nothing happens; or the instance answers and the job
    finds it in sync, or caches the first code, or applies the cached code,
    fetches again and caches what it gets; the patch may be refused, and
    the apply and the second fetch may end in a panic. *)
Lemma work_outcome env job w :
  let run := workOnJob env job w in
  let name := deploymentName (Teamname job) in
  let GET := HttpDo "GET" (continueCodeURL (Teamname job)) in
  let PUT := HttpDo "PUT" (applyURL (Teamname job) (LastContinueCode job)) in
  let PATCH := λ c, DeploymentsPatch "default" name MergePatchType (patchDocument c) in
  let cached := λ c calls_made,
    calls (trace run) = calls_made
    ∧ ((∃ d, result run = Ok (Some c)
             ∧ deployments w !! name = Some d
             ∧ deployments (final run) = <[name := persisted d c]> (deployments w))
       ∨ (result run = Panicked "could not patch deployment"
          ∧ deployments (final run) = deployments w)) in
  (result (getCurrentContinueCode env (Teamname job) w) = Ok None
   ∧ result run = Ok None
   ∧ deployments (final run) = deployments w
   ∧ (calls (trace run) = [] ∨ calls (trace run) = [GET]))
  ∨ ∃ current,
      answers env (Teamname job) w current
      ∧ ((LastContinueCode job ≠ ""
          ∧ LastContinueCode job = current
          ∧ result run = Ok (Some current)
          ∧ deployments (final run) = deployments w
          ∧ calls (trace run) = [GET])
         ∨ (LastContinueCode job = "" ∧ cached current [GET; PATCH current])
         ∨ (LastContinueCode job ≠ ""
            ∧ LastContinueCode job ≠ current
            ∧ ((result run = Panicked nil_dereference
                ∧ deployments (final run) = deployments w
                ∧ (calls (trace run) = [GET]
                   ∨ calls (trace run) = [GET; PUT]
                   ∨ calls (trace run) = [GET; PUT; GET]))
               ∨ ∃ refetched,
                   answers env (Teamname job) (tick (tick w)) refetched
                   ∧ cached refetched [GET; PUT; GET; PATCH refetched]))).
Proof.
  intros run name GET PUT PATCH cached. subst run name GET PUT PATCH cached. cbv beta.
  destruct (fetch_total env (Teamname job) w) as [[current|] Hfetch]; cycle 1.
  { (* the fetch yields nil *)
    left. destruct (fetch_none _ _ _ Hfetch) as (_ & _ & Hdeps & Hcalls).
    split; [done|].
    destruct (decide (LastContinueCode job = "")) as [Hlast|Hlast].
    - rewrite (work_both_absent _ _ _ Hlast Hfetch). project.
      rewrite !calls_app. simpl. by rewrite app_nil_r.
    - rewrite (work_unreachable _ _ _ Hlast Hfetch). project.
      rewrite !calls_app. simpl. by rewrite app_nil_r. }
  right. exists current. split; [by apply fetch_some_answers|].
  pose proof (fetch_some_answers _ _ _ _ Hfetch) as Hans.
  destruct (decide (LastContinueCode job = "")) as [Hlast|Hlast].
  { (* first observation *)
    right. left. split; [done|].
    rewrite (work_first_observation _ _ _ _ Hlast Hfetch). project.
    rewrite !calls_app, cache_calls. split; [done|].
    destruct (cache_outcome env (Teamname job) current (tick w))
      as [(d & Hd & -> & ->) | [-> ->]]; [left; by exists d | by right]. }
  destruct (decide (LastContinueCode job = current)) as [<-|Hne].
  { left. by rewrite (work_in_sync _ _ _ Hlast Hfetch). }
  (* divergence *)
  right. right. do 2 (split; [done|]).
  destruct (result (applyContinueCode env (Teamname job) (LastContinueCode job) (tick w)))
    as [[]|msg] eqn:Happly; cycle 1.
  { left.
    destruct (apply_panics _ _ _ _ _ Happly) as (-> & Hdeps & Hcalls).
    rewrite (work_apply_panics _ _ _ _ _ Hlast Hfetch Hne Happly). project.
    rewrite !calls_app. simpl.
    repeat split; [done|]. destruct Hcalls as [-> | ->]; auto. }
  destruct (fetch_total env (Teamname job) (tick (tick w))) as [[refetched|] Hre]; cycle 1.
  { left.
    destruct (fetch_none _ _ _ Hre) as (_ & _ & Hdeps & _).
    rewrite (work_refetch_absent _ _ _ _ Hlast Hfetch Hne Happly Hre). project.
    rewrite !calls_app.
    assert (url_parse_error env (continueCodeURL (Teamname job)) = None) as Hurl
      by by destruct Hans as (? & ? & ? & ? & _).
    rewrite (fetch_calls_sent _ _ _ Hurl). simpl.
    repeat split; [done|]. auto. }
  right. exists refetched. split; [by apply fetch_some_answers|].
  pose proof (divergence_calls _ _ _ _ _ Hlast Hfetch Hne Happly Hre) as Hcalls.
  rewrite (work_divergence _ _ _ _ _ Hlast Hfetch Hne Happly Hre) in Hcalls |- *.
  project. cbn [trace] in Hcalls. split; [done|].
  destruct (cache_outcome env (Teamname job) refetched (tick (tick (tick w))))
    as [(d & Hd & -> & ->) | [-> ->]]; [left; by exists d | by right].
Qed.

Lemma elem_of_calls e tr : calls [e] = [e] → e ∈ tr → e ∈ calls tr.
Proof.
  intros He. induction tr as [|e' tr IH]; [done|].
  rewrite elem_of_cons. intros [<- | Hin].
  - change (e :: tr) with ([e] ++ tr). rewrite calls_app, He. by left.
  - change (e' :: tr) with ([e'] ++ tr). rewrite calls_app, elem_of_app. auto.
Qed.

Lemma answers_fetch env teamname w c :
  answers env teamname w c →
  result (getCurrentContinueCode env teamname w) = Ok (Some c).
Proof.
  intros Hans. destruct (fetch_cases env teamname w) as [(c' & Hc' & E) | (Hfail & _)].
  - rewrite E. simpl. do 2 f_equal. by eapply answers_functional.
  - by destruct (answers_excludes_failure _ _ _ _ Hans).
Qed.

(** What a job writes: nothing, or the two annotations on the deployment of
    its team, with the code it ends with. *)
Lemma job_writes env job w :
  deployments (final (workOnJob env job w)) = deployments w
  ∨ ∃ c d,
      result (workOnJob env job w) = Ok (Some c)
      ∧ deployments w !! deploymentName (Teamname job) = Some d
      ∧ deployments (final (workOnJob env job w))
        = <[deploymentName (Teamname job) := persisted d c]> (deployments w).
Proof.
  pose proof (work_outcome env job w) as H. cbv zeta in H.
  destruct H as [(_ & _ & ? & _) | (current & _ & H)]; [by left|].
  destruct H as [(_ & _ & _ & ? & _) | [(_ & _ & H) | (_ & _ & H)]]; [by left| |].
  - destruct H as [(d & ? & ? & ?) | [_ ?]]; [right; by exists current, d | by left].
  - destruct H as [(_ & ? & _) | (refetched & _ & _ & H)]; [by left|].
    destruct H as [(d & ? & ? & ?) | [_ ?]]; [right; by exists refetched, d | by left].
Qed.


(** X2: a job leaves every deployment but the one of its team as it is. The
    one of its team is as before, or has the two annotations set, the
    continue code to the code the job ends with, and its labels, replicas
    and other annotations kept. A job that ends in a panic, or without a
    code, has changed no deployment. *)
Theorem job_frame env job w :
  let run := workOnJob env job w in
  let name := deploymentName (Teamname job) in
  (∀ other, other ≠ name → deployments (final run) !! other = deployments w !! other)
  ∧ (deployments (final run) !! name = deployments w !! name
     ∨ ∃ c d, result run = Ok (Some c)
              ∧ deployments w !! name = Some d
              ∧ deployments (final run) !! name = Some (persisted d c))
  ∧ (∀ msg, result run = Panicked msg → deployments (final run) = deployments w)
  ∧ (result run = Ok None → deployments (final run) = deployments w).
Proof.
  intros run name. subst run name.
  destruct (job_writes env job w) as [-> | (c & d & Hres & Hd & ->)].
  { repeat split; auto. }
  split; [|split; [|split]].
  - intros other Hne. by rewrite lookup_insert_ne.
  - right. exists c, d. by rewrite lookup_insert_eq.
  - intros msg. by rewrite Hres.
  - by rewrite Hres.
Qed.

Lemma job_frame_witness :
  deployments (final (workOnJob (Scenario.scripted [Scenario.status 503] [] [])
                        (Scenario.job "alpha" "")
                        (Scenario.cluster "alpha" None)))
  = deployments (Scenario.cluster "alpha" None).
Proof.
  apply (job_frame (Scenario.scripted [Scenario.status 503] [] [])
           (Scenario.job "alpha" "") (Scenario.cluster "alpha" None)).
  vm_compute. reflexivity.
Defined.

(** Go through the members of the list of calls in [H]. *)
Ltac among H :=
  repeat first
    [ apply elem_of_nil in H; destruct H
    | apply elem_of_cons in H as [H | H]; [try discriminate H|] ].

(** X3: a PUT is sent only by a job that has a cached code and whose
    instance has answered the first fetch with another code, and it
    carries the cached code. *)
Theorem apply_only_on_divergence env job w url :
  HttpDo "PUT" url ∈ trace (workOnJob env job w) →
  url = applyURL (Teamname job) (LastContinueCode job)
  ∧ LastContinueCode job ≠ ""
  ∧ ∃ current, answers env (Teamname job) w current ∧ current ≠ LastContinueCode job.
Proof.
  intros Hin. apply elem_of_calls in Hin; [|done].
  pose proof (work_outcome env job w) as H. cbv zeta in H.
  destruct H as [(_ & _ & _ & [E | E]) | (current & Hans & H)];
    [rewrite E in Hin; by among Hin..|].
  destruct H as [(_ & _ & _ & _ & E) | [(_ & E & _) | (Hlast & Hne & H)]];
    [rewrite E in Hin; by among Hin..|].
  assert (url = applyURL (Teamname job) (LastContinueCode job)) as ->.
  { destruct H as [(_ & _ & [E | [E | E]]) | (refetched & _ & E & _)];
      rewrite E in Hin; among Hin; congruence. }
  split; [done|]. split; [done|]. exists current. split; [done|]. congruence.
Qed.

Lemma apply_only_on_divergence_witness :
  ∃ current,
    answers (Scenario.scripted [Scenario.ok "new2"; Scenario.status 204; Scenario.ok "old1"]
               ["new2"; "old1"] [])
      "beta" (Scenario.cluster "beta" (Some "old1")) current
    ∧ current ≠ "old1".
Proof.
  apply (apply_only_on_divergence
           (Scenario.scripted [Scenario.ok "new2"; Scenario.status 204; Scenario.ok "old1"]
              ["new2"; "old1"] [])
           (Scenario.job "beta" "old1") (Scenario.cluster "beta" (Some "old1"))
           (applyURL "beta" "old1")).
  vm_compute. repeat constructor.
Defined.



(** ** Persisting and reading back *)

Lemma jobFor_persisted d code :
  jobFor (persisted d code)
  = {| Teamname := Teamname (jobFor d); LastContinueCode := code |}.
Proof.
  unfold jobFor, persisted, index. simpl. f_equal.
  rewrite lookup_insert_ne by done. by rewrite lookup_insert_eq.
Qed.

Lemma same_instance_persisted d code : same_instance d (persisted d code).
Proof.
  repeat split. intros k Hcc Hcs. simpl. by rewrite !lookup_insert_ne.
Qed.

Lemma persisted_persisted d c1 c2 : persisted (persisted d c1) c2 = persisted d c2.
Proof.
  unfold persisted. simpl. f_equal.
  rewrite (insert_insert_ne _ continueCodeKey challengesSolvedKey) by done.
  by rewrite !insert_insert_eq.
Qed.

(** X5: what [cacheContinueCode] writes is what the next listing reads: when
    the patch is accepted, the job queued for the patched deployment has the
    team name it had and the code just cached as its last continue code;
    labels, replicas and the other annotations are as before. *)
Theorem cached_code_read_back env teamname code w d :
  deployments w !! deploymentName teamname = Some d →
  result (cacheContinueCode env teamname code w) = Ok tt →
  ∃ d',
    deployments (final (cacheContinueCode env teamname code w)) !! deploymentName teamname
    = Some d'
    ∧ jobFor d' = {| Teamname := Teamname (jobFor d); LastContinueCode := code |}
    ∧ same_instance d d'.
Proof.
  intros Hd.
  destruct (cache_outcome env teamname code w) as [(d0 & Hd0 & -> & ->) | [-> _]]; [|done].
  intros _. simplify_eq. exists (persisted d code).
  rewrite lookup_insert_eq.
  auto using jobFor_persisted, same_instance_persisted.
Qed.

Lemma cached_code_read_back_witness :
  ∃ d',
    deployments (final (cacheContinueCode (Scenario.scripted [] [] []) "alpha" "abc123"
                          (Scenario.cluster "alpha" None))) !! deploymentName "alpha"
    = Some d'
    ∧ jobFor d' = {| Teamname := Teamname (jobFor (Scenario.instance "alpha" None));
                     LastContinueCode := "abc123" |}
    ∧ same_instance (Scenario.instance "alpha" None) d'.
Proof.
  apply (cached_code_read_back (Scenario.scripted [] [] []) "alpha" "abc123"
           (Scenario.cluster "alpha" None) (Scenario.instance "alpha" None));
    vm_compute; reflexivity.
Defined.

(** X6: the last code cached wins, and nothing of an earlier one is left:
    after two accepted calls of [cacheContinueCode] for a team the
    deployments are those a single call with the second code gives. Caching
    the same code twice is caching it once. *)
Theorem cached_last_wins env teamname c1 c2 w d :
  let once := cacheContinueCode env teamname c1 w in
  let twice := cacheContinueCode env teamname c2 (final once) in
  deployments w !! deploymentName teamname = Some d →
  result once = Ok tt →
  result twice = Ok tt →
  deployments (final twice) = <[deploymentName teamname := persisted d c2]> (deployments w).
Proof.
  intros once twice Hd. subst once twice.
  destruct (cache_outcome env teamname c1 w) as [(d1 & Hd1 & -> & E1) | [-> _]]; [|done].
  intros _.
  destruct (cache_outcome env teamname c2 (final (cacheContinueCode env teamname c1 w)))
    as [(d2 & Hd2 & -> & ->) | [-> _]]; [|done].
  intros _. rewrite E1 in Hd2 |- *. rewrite lookup_insert_eq in Hd2. simplify_eq.
  by rewrite insert_insert_eq, persisted_persisted.
Qed.

Lemma cached_last_wins_witness :
  deployments
    (final (cacheContinueCode (Scenario.scripted [] [] []) "alpha" "new2"
              (final (cacheContinueCode (Scenario.scripted [] [] []) "alpha" "old1"
                        (Scenario.cluster "alpha" None)))))
  = <[deploymentName "alpha" := persisted (Scenario.instance "alpha" None) "new2"]>
      (deployments (Scenario.cluster "alpha" None)).
Proof.
  apply (cached_last_wins (Scenario.scripted [] [] []) "alpha" "old1" "new2"
           (Scenario.cluster "alpha" None) (Scenario.instance "alpha" None));
    vm_compute; reflexivity.
Defined.

(** X7: a second job finds the first one's work done. Take an instance
    registered under the name of its team's deployment and a job for it that
    ends with the code [c], not empty. If the instance still answers [c],
    the job queued for the deployment as it is now sends one GET, finds the
    codes identical and writes nothing. *)
Theorem second_job_in_sync env instance w c instance' :
  let job := jobFor instance in
  let run := workOnJob env job w in
  let run' := workOnJob env (jobFor instance') (final run) in
  deployments w !! deploymentName (Teamname job) = Some instance →
  result run = Ok (Some c) →
  c ≠ "" →
  deployments (final run) !! deploymentName (Teamname job) = Some instance' →
  answers env (Teamname job) (final run) c →
  result run' = Ok (Some c)
  ∧ calls (trace run') = [HttpDo "GET" (continueCodeURL (Teamname job))]
  ∧ deployments (final run') = deployments (final run).
Proof.
  intros job run run' Hreg Hres Hc Hreg' Hans. subst run'.
  assert (jobFor instance' = {| Teamname := Teamname job; LastContinueCode := c |}) as ->.
  { pose proof (work_outcome env job w) as H. cbv zeta in H. fold run in H.
    destruct H as [(_ & E & _) | (current & Hcur & H)]; [congruence|].
    destruct H as [(Hlast & <- & E & Hdeps & _) | [(_ & _ & H) | (_ & _ & H)]].
    - rewrite Hdeps, Hreg in Hreg'. simplify_eq.
      assert (c = LastContinueCode job) as -> by congruence.
      reflexivity.
    - destruct H as [(d & E & Hd & Hdeps) | [E _]]; [|congruence].
      rewrite Hdeps, lookup_insert_eq in Hreg'. rewrite Hreg in Hd. simplify_eq.
      assert (c = current) as -> by congruence. apply jobFor_persisted.
    - destruct H as [(E & _) | (refetched & _ & _ & H)]; [congruence|].
      destruct H as [(d & E & Hd & Hdeps) | [E _]]; [|congruence].
      rewrite Hdeps, lookup_insert_eq in Hreg'. rewrite Hreg in Hd. simplify_eq.
      assert (c = refetched) as -> by congruence. apply jobFor_persisted. }
  apply answers_fetch in Hans.
  by rewrite (work_in_sync env {| Teamname := Teamname job; LastContinueCode := c |}
                (final run) Hc Hans).
Qed.

Lemma second_job_in_sync_witness :
  calls (trace (workOnJob (steady "abc123")
                  (jobFor (persisted (Scenario.instance "alpha" None) "abc123"))
                  (final (workOnJob (steady "abc123")
                            (jobFor (Scenario.instance "alpha" None))
                            (Scenario.cluster "alpha" None)))))
  = [HttpDo "GET" (continueCodeURL "alpha")].
Proof.
  apply (second_job_in_sync (steady "abc123") (Scenario.instance "alpha" None)
           (Scenario.cluster "alpha" None) "abc123"
           (persisted (Scenario.instance "alpha" None) "abc123")).
  - vm_compute. reflexivity.
  - vm_compute. reflexivity.
  - discriminate.
  - vm_compute. reflexivity.
  - exists {| StatusCode := 200; Body := ReadOk (Scenario.body_of "abc123") |},
      (Scenario.body_of "abc123"), {| ContinueCode := "abc123" |}.
    repeat split; vm_compute; reflexivity.
Defined.

(** ** Teams apart *)

Lemma list_ascii_of_append a b :
  String.list_ascii_of_string (a +:+ b) = String.list_ascii_of_string a ++ String.list_ascii_of_string b.
Proof.
  induction a as [|x a IH]; [done|].
  change (String x a +:+ b) with (String x (a +:+ b)). simpl. by rewrite IH.
Qed.

Lemma append_inj_r s a b : a +:+ s = b +:+ s → a = b.
Proof.
  intros H. apply (f_equal String.list_ascii_of_string) in H.
  rewrite !list_ascii_of_append in H. apply app_inv_tail in H.
  by rewrite <- (String.string_of_list_ascii_of_string a), H, String.string_of_list_ascii_of_string.
Qed.

Lemma deploymentName_inj t1 t2 : deploymentName t1 = deploymentName t2 → t1 = t2.
Proof.
  unfold deploymentName. intros H%(inj (String.append "t-")). by eapply append_inj_r.
Qed.

Lemma continueCodeURL_inj t1 t2 : continueCodeURL t1 = continueCodeURL t2 → t1 = t2.
Proof.
  unfold continueCodeURL. intros H%(inj (String.append "http://t-")).
  by eapply append_inj_r.
Qed.

(** The three kinds of calls of a job. *)
Lemma call_kinds env job w e :
  e ∈ calls (trace (workOnJob env job w)) →
  e = HttpDo "GET" (continueCodeURL (Teamname job))
  ∨ e = HttpDo "PUT" (applyURL (Teamname job) (LastContinueCode job))
  ∨ ∃ c, e = DeploymentsPatch "default" (deploymentName (Teamname job)) MergePatchType
               (patchDocument c).
Proof.
  intros Hin.
  pose proof (work_outcome env job w) as H. cbv zeta in H.
  destruct H as [(_ & _ & _ & [E | E]) | (current & Hans & H)];
    [rewrite E in Hin; among Hin; by eauto..|].
  destruct H as [(_ & _ & _ & _ & E) | [(_ & E & _) | (Hlast & Hne & H)]];
    [rewrite E in Hin; among Hin; by eauto..|].
  destruct H as [(_ & _ & [E | [E | E]]) | (refetched & _ & E & _)];
    rewrite E in Hin; among Hin; by eauto.
Qed.

(** X8: teams do not get in each other's way. Distinct team names give
    distinct deployment names and distinct URLs of the continue code, so a
    job for one team never changes, patches or fetches from the instance of
    another. *)
Theorem team_isolation env job w other :
  other ≠ Teamname job →
  deployments (final (workOnJob env job w)) !! deploymentName other
  = deployments w !! deploymentName other
  ∧ (HttpDo "GET" (continueCodeURL other) ∉ trace (workOnJob env job w))
  ∧ (∀ namespace pt doc,
       DeploymentsPatch namespace (deploymentName other) pt doc
       ∉ trace (workOnJob env job w)).
Proof.
  intros Hother. split; [|split].
  - destruct (job_writes env job w) as [-> | (c & d & _ & _ & ->)]; [done|].
    apply lookup_insert_ne. intros ?%deploymentName_inj. congruence.
  - intros Hin%elem_of_calls; [|done].
    apply call_kinds in Hin as [Hin | [Hin | [c Hin]]]; [|done..].
    assert (continueCodeURL other = continueCodeURL (Teamname job)) as ?%continueCodeURL_inj
      by congruence.
    congruence.
  - intros namespace pt doc Hin%elem_of_calls; [|done].
    apply call_kinds in Hin as [Hin | [Hin | [c Hin]]]; [done..|].
    assert (deploymentName other = deploymentName (Teamname job)) as ?%deploymentName_inj
      by congruence.
    congruence.
Qed.

Lemma team_isolation_witness :
  HttpDo "GET" (continueCodeURL "beta")
  ∉ trace (workOnJob (Scenario.scripted [Scenario.ok "abc123"] ["abc123"] [])
             (Scenario.job "alpha" "") (Scenario.cluster "alpha" None)).
Proof.
  apply (team_isolation (Scenario.scripted [Scenario.ok "abc123"] ["abc123"] [])
           (Scenario.job "alpha" "") (Scenario.cluster "alpha" None) "beta").
  discriminate.
Defined.

(** ** The discovery *)

Lemma queueJobs_sendAll send items w :
  queueJobs send items w = sendAll send (jobFor <$> ready items) w.
Proof.
  revert w. induction items as [|d items IH]; intros w; [done|].
  cbn [queueJobs]. unfold ready.
  destruct (decide (ReadyReplicas d ≠ 1)) as [Hd|Hd].
  - rewrite filter_cons_False by done. apply IH.
  - apply dec_stable in Hd. rewrite filter_cons_True by done.
    cbn [fmap list_fmap sendAll].
    apply bind_ext. intros _ w1. apply bind_ext. intros _ w2. apply IH.
Qed.

(** X9: the loop over the listing sends one job for each item with exactly
    one ready replica, in the order of the listing and each after its DEBUG
    line, and passes over every other item (none ready, or more than one)
    without a trace. *)
Theorem only_ready_instances_queued send items w :
  queueJobs send items w = sendAll send (jobFor <$> ready items) w
  ∧ (∀ job, job ∈ jobFor <$> ready items ↔
            ∃ d, d ∈ items ∧ ReadyReplicas d = 1 ∧ job = jobFor d)
  ∧ (ready items = [] → queueJobs send items w = ret tt w).
Proof.
  split; [apply queueJobs_sendAll|]. split.
  - intros job. rewrite list_elem_of_fmap. unfold ready. split.
    + intros (d & -> & [? ?]%list_elem_of_filter). eauto.
    + intros (d & ? & ? & ->). exists d. split; [done|].
      by apply list_elem_of_filter.
  - intros Hnone. by rewrite queueJobs_sendAll, Hnone.
Qed.

Lemma only_ready_instances_queued_witness :
  queueJobs (λ _, panic "never sent")
    [{| DLabels := ∅; DAnnotations := ∅; ReadyReplicas := 0 |};
     {| DLabels := ∅; DAnnotations := ∅; ReadyReplicas := 2 |}]
    (Scenario.cluster "alpha" None)
  = ret tt (Scenario.cluster "alpha" None).
Proof.
  apply (only_ready_instances_queued (λ _, panic "never sent")
           [{| DLabels := ∅; DAnnotations := ∅; ReadyReplicas := 0 |};
            {| DLabels := ∅; DAnnotations := ∅; ReadyReplicas := 2 |}]
           (Scenario.cluster "alpha" None)).
  reflexivity.
Defined.

Lemma discover_listed env send w :
  list_error env (clock w) = None →
  discover env send w =
    {| trace := [Log DEBUG "Looking for Instances";
                 DeploymentsList "default" "app=juice-shop";
                 Log DEBUG ("Found " +:+ pretty (length (listed env w))
                            +:+ " JuiceShop running")]
                ++ trace (bind (queueJobs send (listed env w)) (λ _, emit (Sleep 5))
                            (tick w));
       final := final (bind (queueJobs send (listed env w)) (λ _, emit (Sleep 5))
                         (tick w));
       result := result (bind (queueJobs send (listed env w)) (λ _, emit (Sleep 5))
                           (tick w)) |}.
Proof.
  intros Hlist. unfold discover. rewrite bind_log.
  rewrite (bind_ok _ _ _ (inr (listed env w)));
    [|by unfold deployments_List, listed; simpl; rewrite Hlist].
  rewrite bind_log. reflexivity.
Qed.

(** X10: a round that lists no instance with exactly one ready replica (an
    empty namespace, or instances that are all starting or scaled) makes
    the list call and nothing else: it logs how many deployments the
    listing has, ready or not, sends no job, sleeps five seconds and leaves
    the deployments as they are. *)
Theorem idle_round env send w :
  list_error env (clock w) = None →
  ready (listed env w) = [] →
  discover env send w =
    {| trace := [Log DEBUG "Looking for Instances";
                 DeploymentsList "default" "app=juice-shop";
                 Log DEBUG ("Found " +:+ pretty (length (listed env w))
                            +:+ " JuiceShop running");
                 Sleep 5];
       final := tick w;
       result := Ok tt |}.
Proof.
  intros Hlist Hnone. rewrite (discover_listed _ _ _ Hlist).
  unfold bind. rewrite queueJobs_sendAll, Hnone. reflexivity.
Qed.

Lemma idle_round_witness :
  result (discover (Scenario.scripted [] [] []) (λ _, panic "never sent")
            {| clock := 0; deployments := ∅ |}) = Ok tt.
Proof.
  rewrite (idle_round (Scenario.scripted [] [] []) (λ _, panic "never sent")
             {| clock := 0; deployments := ∅ |}); reflexivity.
Defined.

(** ** What the process keeps *)

Lemma same_fleet_refl ds : same_fleet ds ds.
Proof. intros name. destruct (ds !! name); by constructor. Qed.

Lemma same_fleet_trans ds1 ds2 ds3 :
  same_fleet ds1 ds2 → same_fleet ds2 ds3 → same_fleet ds1 ds3.
Proof.
  intros H12 H23 name. specialize (H12 name). specialize (H23 name).
  destruct H12 as [d1 d2 (Hl & Hr & Ha)|]; inversion H23 as [? d3 (Hl' & Hr' & Ha')|];
    constructor.
  repeat split; [congruence..|]. intros k ? ?. rewrite Ha', Ha; done.
Qed.

Lemma same_fleet_persisted ds name d code :
  ds !! name = Some d → same_fleet ds (<[name := persisted d code]> ds).
Proof.
  intros Hd other. destruct (decide (name = other)) as [<-|Hne].
  - rewrite Hd, lookup_insert_eq. constructor. apply same_instance_persisted.
  - rewrite lookup_insert_ne by done. apply same_fleet_refl.
Qed.

Lemma keeps_bind {A B} (m : M A) (f : A → M B) :
  keeps m → (∀ a, keeps (f a)) → keeps (bind m f).
Proof.
  intros Hm Hf w. unfold bind. destruct (result (m w)) as [a|msg]; simpl; [|apply Hm].
  eapply same_fleet_trans; [apply Hm | apply Hf].
Qed.

Lemma keeps_here {A} (m : M A) :
  (∀ w, deployments (final (m w)) = deployments w) → keeps m.
Proof. intros H w. rewrite H. apply same_fleet_refl. Qed.

Lemma keeps_workOnJob env job : keeps (workOnJob env job).
Proof.
  intros w. destruct (job_writes env job w) as [-> | (c & d & _ & Hd & ->)].
  - apply same_fleet_refl.
  - by apply same_fleet_persisted.
Qed.

Lemma keeps_worker env jobs : keeps (workOnProgressUpdates env jobs).
Proof.
  induction jobs as [|job jobs IH]; [by apply keeps_here|].
  apply keeps_bind; [apply keeps_workOnJob | done].
Qed.

Lemma keeps_queueJobs send items :
  (∀ job, keeps (send job)) → keeps (queueJobs send items).
Proof.
  intros Hsend. induction items as [|d items IH]; [by apply keeps_here|].
  cbn [queueJobs]. destruct (decide (ReadyReplicas d ≠ 1)); [done|].
  apply keeps_bind; [by apply keeps_here|]. intros _.
  apply keeps_bind; [apply Hsend | done].
Qed.

Lemma keeps_discover env send : (∀ job, keeps (send job)) → keeps (discover env send).
Proof.
  intros Hsend. unfold discover.
  apply keeps_bind; [by apply keeps_here|]. intros _.
  apply keeps_bind; [by apply keeps_here|]. intros [err|items]; [by apply keeps_here|].
  apply keeps_bind; [by apply keeps_here|]. intros _.
  apply keeps_bind; [by apply keeps_queueJobs|]. intros _. by apply keeps_here.
Qed.

Lemma keeps_rounds env send rounds :
  (∀ job, keeps (send job)) → keeps (createProgressUpdateJobs env send rounds).
Proof.
  intros Hsend. induction rounds as [|rounds IH]; [by apply keeps_here|].
  apply keeps_bind; [by apply keeps_discover | done].
Qed.

(** X11: however many rounds the process runs and whatever the outside
    answers, panic or not, it creates and deletes no deployment, and
    changes of a deployment neither the labels nor the ready replicas nor
    any annotation but the continue code and the solved challenges. *)
Theorem fleet_kept env rounds w :
  same_fleet (deployments w) (deployments (final (watchdog env rounds w)))
  ∧ dom (deployments (final (watchdog env rounds w))) = dom (deployments w).
Proof.
  assert (same_fleet (deployments w) (deployments (final (watchdog env rounds w)))) as H.
  { apply keeps_rounds. intros job. apply keeps_worker. }
  split; [done|]. apply set_eq. intros name. rewrite !elem_of_dom.
  specialize (H name). destruct H; split; intros [? ?]; by eauto.
Qed.

(** ** A fleet in sync *)

Lemma settled_job env d w :
  LastContinueCode (jobFor d) ≠ "" →
  answers env (Teamname (jobFor d)) w (LastContinueCode (jobFor d)) →
  workOnProgressUpdates env [jobFor d] w =
    {| trace := preamble (jobFor d)
                ++ [HttpDo "GET" (continueCodeURL (Teamname (jobFor d)));
                    Log DEBUG ("Got current continue code: '"
                               +:+ LastContinueCode (jobFor d) +:+ "'");
                    Log DEBUG "Checking Difference between continue code";
                    Log DEBUG "Continue codes are identical. Sleeping"];
       final := tick w;
       result := Ok tt |}.
Proof.
  intros Hlast Hans%answers_fetch.
  pose proof (work_in_sync _ _ _ Hlast Hans) as Hrun.
  cbn [workOnProgressUpdates].
  rewrite (bind_ok _ _ _ (Some (LastContinueCode (jobFor d)))); [|by rewrite Hrun].
  rewrite Hrun. project. by rewrite app_nil_r.
Qed.

Lemma settled_queue env items :
  (∀ d, d ∈ items → ReadyReplicas d = 1 →
        LastContinueCode (jobFor d) ≠ ""
        ∧ ∀ w, answers env (Teamname (jobFor d)) w (LastContinueCode (jobFor d))) →
  ∀ w,
    result (queueJobs (λ job, workOnProgressUpdates env [job]) items w) = Ok tt
    ∧ deployments (final (queueJobs (λ job, workOnProgressUpdates env [job]) items w))
      = deployments w
    ∧ Forall reads (calls (trace (queueJobs (λ job, workOnProgressUpdates env [job])
                                    items w))).
Proof.
  induction items as [|d items IH]; intros Hitems w; [by repeat split|].
  cbn [queueJobs].
  assert (∀ d', d' ∈ items → ReadyReplicas d' = 1 →
                LastContinueCode (jobFor d') ≠ ""
                ∧ ∀ w, answers env (Teamname (jobFor d')) w (LastContinueCode (jobFor d')))
    as Hrest by (intros d' Hd'; apply Hitems; by right).
  destruct (decide (ReadyReplicas d ≠ 1)) as [Hd|Hd]; [by apply IH|].
  apply dec_stable in Hd.
  destruct (Hitems d (list_elem_of_here _ _) Hd) as [Hlast Hans].
  pose proof (settled_job env d w Hlast (Hans w)) as Hjob.
  rewrite bind_log, (bind_ok _ _ _ tt); [|by rewrite Hjob].
  rewrite Hjob. project.
  destruct (IH Hrest (tick w)) as (Hres & Hdeps & Hreads).
  split; [done|]. split; [done|].
  change (Log ?l ?m :: ?tr) with ([Log l m] ++ tr). rewrite !calls_app. simpl.
  constructor; [right; by eexists | done].
Qed.

Lemma listed_registered env w d :
  d ∈ listed env w →
  label_selects env "app=juice-shop" (DLabels d) = true
  ∧ ∃ name, deployments w !! name = Some d.
Proof.
  unfold listed. intros [Hsel Hin]%list_elem_of_filter. split; [done|].
  apply list_elem_of_fmap in Hin as ([name d'] & -> & Hin%elem_of_map_to_list).
  by exists name.
Qed.

Lemma settled_round env w :
  settled env (deployments w) →
  result (discover env (λ job, workOnProgressUpdates env [job]) w) = Ok tt
  ∧ deployments (final (discover env (λ job, workOnProgressUpdates env [job]) w))
    = deployments w
  ∧ Forall reads (calls (trace (discover env (λ job, workOnProgressUpdates env [job]) w))).
Proof.
  intros [Hlist Hsettled].
  rewrite (discover_listed _ _ _ (Hlist (clock w))). project.
  destruct (settled_queue env (listed env w)) with (w := tick w) as (Hres & Hdeps & Hreads).
  { intros d [Hsel [name Hname]]%listed_registered Hready. by eapply Hsettled. }
  rewrite (bind_ok _ _ _ _ Hres). project.
  split; [done|]. split; [done|].
  rewrite !calls_app. simpl. rewrite app_nil_r.
  constructor; [by left | done].
Qed.

(** X12: a fleet in sync stays as it is. Suppose the list call never fails
    and every ready instance the selector matches has a cached code and
    answers every fetch with that code. Then the process runs any number of
    rounds without a panic, makes no call but the list call of each round
    and one GET for each such instance, and the deployments at the end are
    the deployments at the start. *)
Theorem settled_fleet_untouched env w rounds :
  settled env (deployments w) →
  result (watchdog env rounds w) = Ok tt
  ∧ deployments (final (watchdog env rounds w)) = deployments w
  ∧ Forall reads (calls (trace (watchdog env rounds w))).
Proof.
  unfold watchdog. revert w. induction rounds as [|rounds IH]; intros w Hsettled.
  { by repeat split. }
  cbn [createProgressUpdateJobs].
  destruct (settled_round env w Hsettled) as (Hres & Hdeps & Hreads).
  rewrite (bind_ok _ _ _ _ Hres). project.
  destruct (IH (final (discover env (λ job, workOnProgressUpdates env [job]) w)))
    as (Hres' & Hdeps' & Hreads'); [by rewrite Hdeps|].
  split; [done|]. split; [congruence|].
  rewrite calls_app. by apply Forall_app.
Qed.

Lemma settled_fleet_untouched_witness :
  deployments (final (watchdog (steady "abc123") 3 (Scenario.cluster "alpha" (Some "abc123"))))
  = deployments (Scenario.cluster "alpha" (Some "abc123")).
Proof.
  apply (settled_fleet_untouched (steady "abc123") (Scenario.cluster "alpha" (Some "abc123"))
           3).
  split; [done|]. intros name d Hd _ _.
  unfold Scenario.cluster in Hd. cbn [deployments] in Hd.
  apply lookup_insert_Some in Hd as [[_ <-] | [_ Hd]]; [|by rewrite lookup_empty in Hd].
  split; [discriminate|]. intros w.
  exists {| StatusCode := 200; Body := ReadOk (Scenario.body_of "abc123") |},
    (Scenario.body_of "abc123"), {| ContinueCode := "abc123" |}.
  repeat split; vm_compute; reflexivity.
Defined.

(** ** The two requests, once more *)

#[local] Transparent getCurrentContinueCode.

Lemma fetch_unparsed env teamname w err :
  url_parse_error env (continueCodeURL teamname) = Some err →
  getCurrentContinueCode env teamname w =
    {| trace := [Log WARNING "Failed to create http request"; Log WARNING err];
       final := w;
       result := Ok None |}.
Proof.
  intros Hurl. unfold getCurrentContinueCode, http_NewRequest, bind, log, emit, ret.
  simpl. by rewrite Hurl.
Qed.

Lemma fetch_final env teamname w :
  url_parse_error env (continueCodeURL teamname) = None →
  final (getCurrentContinueCode env teamname w) = tick w.
Proof.
  intros Hurl.
  unfold getCurrentContinueCode, http_NewRequest, http_Do, bind, log, emit, ret.
  simpl. rewrite Hurl. simpl.
  destruct (round_trip env (clock w) "GET" (continueCodeURL teamname)) as [err|res]; [done|].
  simpl. destruct (decide (StatusCode res = 200)); [|done].
  destruct (Body res) as [body|err]; [|done].
  by destruct (json_unmarshal env body).
Qed.

#[local] Opaque getCurrentContinueCode.

(** X13: a fetch asks once. When the URL cannot be parsed it sends nothing,
    logs two warnings and yields nil; otherwise it sends exactly one GET to
    the URL of the team, whatever comes back: no failure is retried within
    the fetch. It changes no deployment. *)
Theorem fetch_asks_once env teamname w :
  (∀ err, url_parse_error env (continueCodeURL teamname) = Some err →
     getCurrentContinueCode env teamname w =
       {| trace := [Log WARNING "Failed to create http request"; Log WARNING err];
          final := w;
          result := Ok None |})
  ∧ (url_parse_error env (continueCodeURL teamname) = None →
     calls (trace (getCurrentContinueCode env teamname w))
     = [HttpDo "GET" (continueCodeURL teamname)]
     ∧ final (getCurrentContinueCode env teamname w) = tick w)
  ∧ deployments (final (getCurrentContinueCode env teamname w)) = deployments w.
Proof.
  split; [|split].
  - intros err. apply fetch_unparsed.
  - intros Hurl. split; [by apply fetch_calls_sent | by apply fetch_final].
  - destruct (url_parse_error env (continueCodeURL teamname)) as [err|] eqn:Hurl.
    + by rewrite (fetch_unparsed _ _ _ _ Hurl).
    + by rewrite (fetch_final _ _ _ Hurl).
Qed.

Lemma fetch_asks_once_witness :
  calls (trace (getCurrentContinueCode (Scenario.scripted [Scenario.refused] [] []) "delta"
                  (Scenario.cluster "delta" None)))
  = [HttpDo "GET" (continueCodeURL "delta")].
Proof.
  apply (fetch_asks_once (Scenario.scripted [Scenario.refused] [] []) "delta"
           (Scenario.cluster "delta" None)).
  reflexivity.
Defined.



(** ** The worker and its jobs *)




(** ** The home directory *)

(** X16: [homeDir] prefers HOME: it yields USERPROFILE only when HOME is
    empty or not set, and the empty string exactly when both are. *)
Theorem homeDir_fallback (getenv : string → string) :
  (getenv "HOME" ≠ "" → homeDir getenv = getenv "HOME")
  ∧ (getenv "HOME" = "" → homeDir getenv = getenv "USERPROFILE")
  ∧ (homeDir getenv = "" ↔ getenv "HOME" = "" ∧ getenv "USERPROFILE" = "").
Proof.
  unfold homeDir. destruct (decide (getenv "HOME" ≠ "")) as [H|H%dec_stable].
  - split; [done|]. split; [done|]. split; [done|]. by intros [? _].
  - split; [done|]. split; [done|]. rewrite H. split; [done|]. by intros [_ ?].
Qed.

Lemma homeDir_fallback_witness :
  homeDir (λ name, if decide (name = "USERPROFILE") then "C:/Users/juicy" else "")
  = "C:/Users/juicy".
Proof.
  rewrite (proj1 (proj2 (homeDir_fallback
             (λ name, if decide (name = "USERPROFILE") then "C:/Users/juicy" else ""))));
    reflexivity.
Defined.

(** ** The two quiet branches *)

(** X17: a job whose instance answers with the cached code does nothing: it
    sends the one GET, no PUT and no patch, logs nothing at WARNING or
    ERROR, changes no deployment and returns. *)
Theorem in_sync_no_action env job w :
  LastContinueCode job ≠ "" →
  answers env (Teamname job) w (LastContinueCode job) →
  result (workOnJob env job w) = Ok (Some (LastContinueCode job))
  ∧ calls (trace (workOnJob env job w)) = [HttpDo "GET" (continueCodeURL (Teamname job))]
  ∧ ¬ failure_logged (trace (workOnJob env job w))
  ∧ deployments (final (workOnJob env job w)) = deployments w.
Proof.
  intros Hlast Hans%answers_fetch.
  rewrite (work_in_sync _ _ _ Hlast Hans). project.
  repeat split. intros (msg & [H | H]); by among H.
Qed.

Lemma in_sync_no_action_witness :
  calls (trace (workOnJob (steady "same") (Scenario.job "gamma" "same")
                  (Scenario.cluster "gamma" (Some "same"))))
  = [HttpDo "GET" (continueCodeURL "gamma")].
Proof.
  apply (in_sync_no_action (steady "same") (Scenario.job "gamma" "same")
           (Scenario.cluster "gamma" (Some "same"))).
  - discriminate.
  - exists {| StatusCode := 200; Body := ReadOk (Scenario.body_of "same") |},
      (Scenario.body_of "same"), {| ContinueCode := "same" |}.
    repeat split; vm_compute; reflexivity.
Defined.

(** X18: a job without a cached code whose fetch yields nil says so in a
    WARNING of its own, sends no PUT and no patch, changes no deployment
    and returns; the worker goes on with its next job. *)
Theorem both_absent_warns env job w :
  LastContinueCode job = "" →
  result (getCurrentContinueCode env (Teamname job) w) = Ok None →
  result (workOnJob env job w) = Ok None
  ∧ Log WARNING "Failed to fetch both current and cached continue code"
    ∈ trace (workOnJob env job w)
  ∧ (calls (trace (workOnJob env job w)) = []
     ∨ calls (trace (workOnJob env job w)) = [HttpDo "GET" (continueCodeURL (Teamname job))])
  ∧ deployments (final (workOnJob env job w)) = deployments w
  ∧ ∀ rest,
      result (workOnProgressUpdates env (job :: rest) w)
      = result (workOnProgressUpdates env rest (final (workOnJob env job w))).
Proof.
  intros Hlast Hfetch.
  destruct (fetch_none _ _ _ Hfetch) as (_ & _ & Hdeps & Hcalls).
  assert (result (workOnJob env job w) = Ok None) as Hres
    by by rewrite (work_both_absent _ _ _ Hlast Hfetch).
  split; [done|]. split; [|split; [|split]].
  - rewrite (work_both_absent _ _ _ Hlast Hfetch). project.
    rewrite !elem_of_app. right. right. by apply list_elem_of_singleton.
  - rewrite (work_both_absent _ _ _ Hlast Hfetch). project.
    rewrite !calls_app. simpl. by rewrite app_nil_r.
  - by rewrite (work_both_absent _ _ _ Hlast Hfetch).
  - intros rest. cbn [workOnProgressUpdates]. by rewrite (bind_ok _ _ _ _ Hres).
Qed.

Lemma both_absent_warns_witness :
  result (workOnJob (Scenario.scripted [Scenario.refused] [] []) (Scenario.job "delta" "")
            (Scenario.cluster "delta" None)) = Ok None.
Proof.
  apply (both_absent_warns (Scenario.scripted [Scenario.refused] [] [])
           (Scenario.job "delta" "") (Scenario.cluster "delta" None));
    vm_compute; reflexivity.
Defined.
